(** * wikigraphviz: the category-graph bot (src/wikigraphviz.py)

    A shallow embedding of [CategoryGraphBot]: the recursive traversal
    [scan_level], the visual encoding done by its local functions [node] and
    [edge], the size-limiting pass of [run], the list of subcategories in
    the tool tip of [node] and the base file name [__init__] settles on.

    Conventions.
    - Python [int] is [Z]; Python [float] is IEEE-754 binary64, taken from the
      Standard Library's executable specification [SpecFloat].
    - [self.rev] and [self.fw] ([defaultdict(list)]) are [gmap string (list
      string)] read with the total lookup [!!!] (a missing key reads as the
      empty list); [self.leaves] is a [gset string].
    - [self.dot] (the pydot graph) is the list of its items in insertion
      order, which is the order pydot numbers and prints them in; [del_node]
      and [del_edge] remove every item of the given name or endpoints, as
      pydot does when no index is given.
      A node and the endpoints of an edge are named by the title of their
      category, as the bot passes it to pydot (the quoting pydot applies to
      names is not modelled).
    - Exceptions are explicit: a computation returns [Ok], [Raise] or, for
      the two recursive functions that are defined with fuel, [OutOfFuel];
      the fuel of [scan_level] bounds the nesting of its calls, that of
      [prune_chain] the turns of the [while] loop.  The interpreter's own
      recursion limit is not modelled.
    - pywikibot, pydot, argparse and the Python built-ins that parse text are
      outside the repository; the ones the bot calls are variables of the
      sections below. *)

From Stdlib Require Import ZArith QArith Qround Qabs Lia.
From Stdlib Require Import Floats.SpecFloat.
From stdpp Require Import base gmap strings list fin_maps.

#[local] Set Warnings "-clear-no-such-hyp".

Local Open Scope Z_scope.

(** ** Python floats *)

Module Binary64.

Definition prec : Z := 53.
Definition emax : Z := 1024.

Abbreviation float := spec_float.

(** [float(z)] for a Python int (round to nearest even). *)
Definition of_Z (z : Z) : float := binary_normalize prec emax z 0 false.

Definition mul : float → float → float := SFmul prec emax.
Definition div : float → float → float := SFdiv prec emax.
Definition add : float → float → float := SFadd prec emax.

Definition is_zero (x : float) : bool :=
  match x with S754_zero _ => true | _ => false end.

(** The integer part of a finite float, towards zero. *)
Definition trunc_finite (s : bool) (m : positive) (e : Z) : Z :=
  let a := if 0 <=? e then Z.pos m * 2 ^ e else Z.pos m / 2 ^ (- e) in
  if s then - a else a.

(** C [fmod(x, 1.0)]: the fractional part, with the sign of [x]; exact. *)
Definition fmod1 (x : float) : float :=
  match x with
  | S754_zero s => S754_zero s
  | S754_finite s m e =>
      if 0 <=? e then S754_zero s
      else binary_normalize prec emax
             (cond_Zopp s (Z.pos m mod 2 ^ (- e))) e s
  | _ => S754_nan
  end.

Definition one : float := of_Z 1.

(** Python [x % 1] on a float ([float_rem] of floatobject.c with divisor
    1.0): the C remainder, moved into [0, 1) when it is negative, and
    [+0.0] when it is zero. *)
Definition mod1 (x : float) : float :=
  let r := fmod1 x in
  match r with
  | S754_zero _ => S754_zero false
  | S754_finite true _ _ => add r one
  | _ => r
  end.

(** The rational value of a finite float (0 for infinities and nan). *)
Definition to_Q (x : float) : Q :=
  match x with
  | S754_finite s m e =>
      let a := cond_Zopp s (Z.pos m) in
      if 0 <=? e then inject_Z (a * 2 ^ e) else Qmake a (Z.to_pos (2 ^ (- e)))
  | _ => 0%Q
  end.

End Binary64.

Import Binary64.


(** ** Exceptions *)

Inductive exn := ValueError | OverflowError | ZeroDivisionError.

Inductive result (A : Type) :=
  | Ok (a : A)
  | Raise (e : exn)
  | OutOfFuel.
Arguments Ok {A} a.
Arguments Raise {A} e.
Arguments OutOfFuel {A}.

Global Instance result_ret : MRet result := λ A a, Ok a.
Global Instance result_bind : MBind result := λ A B f r,
  match r with
  | Ok a => f a
  | Raise e => Raise e
  | OutOfFuel => OutOfFuel
  end.

(** A call of an external function, which returns or raises. *)
Definition call {A} (r : exn + A) : result A :=
  match r with
  | inl e => Raise e
  | inr a => Ok a
  end.

(** ** Python built-ins on floats and lists *)

(** [int(x)] for a float: truncation towards zero; [OverflowError] on an
    infinity and [ValueError] on a nan. *)
Definition int_of_float (x : float) : result Z :=
  match x with
  | S754_zero _ => Ok 0
  | S754_finite s m e => Ok (trunc_finite s m e)
  | S754_infinity _ => Raise OverflowError
  | S754_nan => Raise ValueError
  end.

(** Truncation of a rational towards zero. *)
Definition Qtrunc (q : Q) : Z :=
  if Qle_bool 0 q then Qfloor q else Qceiling q.

(** [round(x)] for a float, without digits: the nearest integer, ties to
    even. *)
Definition round_of_float (x : float) : result Z :=
  match x with
  | S754_zero _ => Ok 0
  | S754_finite s m e =>
      if 0 <=? e then Ok (trunc_finite s m e)
      else
        let q := Z.pos m / 2 ^ (- e) in
        let r := Z.pos m mod 2 ^ (- e) in
        let a := match 2 * r ?= 2 ^ (- e) with
                 | Lt => q
                 | Gt => q + 1
                 | Eq => if Z.even q then q else q + 1
                 end in
        Ok (if s then - a else a)
  | S754_infinity _ => Raise OverflowError
  | S754_nan => Raise ValueError
  end.

(** [l.remove(x)]: drops the first occurrence, [ValueError] when there is
    none. *)
Fixpoint list_remove (x : string) (l : list string) : result (list string) :=
  match l with
  | [] => Raise ValueError
  | y :: l' =>
      if decide (x = y) then Ok l'
      else l'' ← list_remove x l'; Ok (y :: l'')
  end.

(** ** Data model *)

(** A value of the argparse namespace: the declared default (an int) or the
    text given on the command line. *)
Inductive arg :=
  | ArgInt (z : Z)
  | ArgStr (s : string).

Record Args := {
  depth : arg;       (* [--depth], default 2 *)
  downsize : arg     (* [-downsize], default 4 *)
}.

Definition default_args : Args := {| depth := ArgInt 2; downsize := ArgInt 4 |}.

(** The attributes of a pydot node that [node()] computes from numbers; the
    label is [title] and the count, the tooltip and the URL are texts built
    from the titles and are not kept. *)
Record Node := {
  node_name : string;
  node_count : nat;        (* [len(subcats)], shown in the label *)
  fontsize : Z
}.

(** The attributes of a pydot edge that [edge()] computes.  [penwidth],
    [arrowsize] and the two colours are [edge_size] and [edge_hue] rounded to
    two decimals and printed; they are kept here before that rounding. *)
Record Edge := {
  source : string;
  destination : string;
  minlen : Z;
  edge_size : float;
  edge_hue : float;
  labelfontsize : Z
}.

Inductive item :=
  | INode (nd : Node)
  | IEdge (e : Edge).

Global Instance Node_eq_dec : EqDecision Node.
Proof. solve_decision. Defined.

Record Bot := {
  dot : list item;
  counter : Z;
  leaves : gset string;
  rev : gmap string (list string);
  fw : gmap string (list string)
}.

(** The state [__init__] leaves. *)
Definition init : Bot :=
  {| dot := []; counter := 0; leaves := ∅; rev := ∅; fw := ∅ |}.

(** *** The graph sink *)

Definition is_node (name : string) (it : item) : Prop :=
  match it with INode nd => node_name nd = name | IEdge _ => False end.

Definition is_edge (src dst : string) (it : item) : Prop :=
  match it with
  | IEdge e => source e = src ∧ destination e = dst
  | INode _ => False
  end.

Global Instance is_node_dec name it : Decision (is_node name it).
Proof. destruct it; simpl; apply _. Defined.

Global Instance is_edge_dec src dst it : Decision (is_edge src dst it).
Proof. destruct it; simpl; apply _. Defined.

Definition add_node (nd : Node) (d : list item) : list item := d ++ [INode nd].
Definition add_edge (e : Edge) (d : list item) : list item := d ++ [IEdge e].

Definition del_node (name : string) (d : list item) : list item :=
  filter (λ it, ¬ is_node name it) d.

Definition del_edge (src dst : string) (d : list item) : list item :=
  filter (λ it, ¬ is_edge src dst it) d.

(** The names of the nodes of a graph, in order. *)
Definition node_names (d : list item) : list string :=
  omap (λ it, match it with INode nd => Some (node_name nd) | IEdge _ => None end) d.

Definition edges (d : list item) : list Edge :=
  omap (λ it, match it with IEdge e => Some e | INode _ => None end) d.

Definition nodes (d : list item) : list Node :=
  omap (λ it, match it with INode nd => Some nd | IEdge _ => None end) d.

Definition set_dot (d : list item) (st : Bot) : Bot :=
  {| dot := d; counter := counter st; leaves := leaves st;
     rev := rev st; fw := fw st |}.

Definition set_counter (c : Z) (st : Bot) : Bot :=
  {| dot := dot st; counter := c; leaves := leaves st;
     rev := rev st; fw := fw st |}.

Definition set_leaves (s : gset string) (st : Bot) : Bot :=
  {| dot := dot st; counter := counter st; leaves := s;
     rev := rev st; fw := fw st |}.

Definition set_rev (m : gmap string (list string)) (st : Bot) : Bot :=
  {| dot := dot st; counter := counter st; leaves := leaves st;
     rev := m; fw := fw st |}.

Definition set_fw (m : gmap string (list string)) (st : Bot) : Bot :=
  {| dot := dot st; counter := counter st; leaves := leaves st;
     rev := rev st; fw := m |}.

(** [s.add(x)] on a set: an insertion into the map that carries the set
    (the same set as [{[x]} ∪ s], see [set_add_union]). *)
Definition set_add (x : string) (s : gset string) : gset string :=
  let (m) := s in mapset.Mapset (<[x := ()]> m).

(** [d[k].append(x)] on a [defaultdict(list)]. *)
Definition dict_append (k x : string) (m : gmap string (list string)) :
    gmap string (list string) :=
  <[k := (m !!! k) ++ [x]]> m.

(** [self.dot.add_node(node); self.counter += 1] *)
Definition created (nd : Node) (st : Bot) : Bot :=
  set_counter (counter st + 1) (set_dot (add_node nd (dot st)) st).

(** [self.dot.add_edge(e)] *)
Definition with_edge (e : Edge) (st : Bot) : Bot :=
  set_dot (add_edge e (dot st)) st.

(** [self.rev[dst].append(src); self.fw[src].append(dst)] *)
Definition recorded (e : Edge) (st : Bot) : Bot :=
  set_fw (dict_append (source e) (destination e) (fw st))
    (set_rev (dict_append (destination e) (source e) (rev st)) st).

(** ** Visual encoding: the numbers of [scan_level] *)

(** The hard cap on created nodes, [1e4], and the threshold above which the
    graph is reduced. *)
Definition node_limit : Z := 10000.
Definition reduce_threshold : Z := 1000.

(** [(11 / 18 * n) % 1] *)
Definition fresh_hue (n : Z) : float :=
  mod1 (mul (div (of_Z 11) (of_Z 18)) (of_Z n)).

(** [h = hue if hue is not None else (11 / 18 * n) % 1] *)
Definition branch_hue (hue : option float) (n : Z) : float :=
  match hue with
  | Some h => h
  | None => fresh_hue n
  end.

(** [columns = len(subcats) // 5 + 1] *)
Definition columns_of {A} (subcats : list A) : Z :=
  Z.of_nat (length subcats) / 5 + 1.

Section CategoryGraphBot.

(** *** External collaborators *)

Context {Cat : Type}.
(** pywikibot: [cat.title(with_ns=False)] and [cat.subcategories()]. *)
Variable title : Cat → string.
Variable subcategories : Cat → list Cat.
(** Python: [x ** n] for a float and an int (the C library's [pow] and the
    exceptions [float.__pow__] raises), [int(s)] and [float(s)] for a
    text. *)
Variable float_pow : float → Z → exn + float.
Variable int_of_str : string → exn + Z.
Variable float_of_str : string → exn + float.
(** pydot: the text [dot.write] saves, a function of the graph's items. *)
Variable to_string : list item → string.
(** The parsed command line. *)
Variable args : Args.

(** [int(a)] and [float(a)] for a value of the namespace. *)
Definition py_int (a : arg) : result Z :=
  match a with
  | ArgInt z => Ok z
  | ArgStr s => call (int_of_str s)
  end.

Definition py_float (a : arg) : result float :=
  match a with
  | ArgInt z =>
      match of_Z z with
      | S754_infinity _ => Raise OverflowError
      | x => Ok x
      end
  | ArgStr s => call (float_of_str s)
  end.

(** [sorted(cat.subcategories())]: pages of one site and namespace compare
    by title; the sort is stable. *)
Fixpoint insert_sorted (c : Cat) (l : list Cat) : list Cat :=
  match l with
  | [] => [c]
  | c' :: l' =>
      if String.ltb (title c') (title c) then c' :: insert_sorted c l'
      else c :: l
  end.

Definition sorted (l : list Cat) : list Cat := foldr insert_sorted [] l.

(** [level != self.args.depth]: an int never equals a str. *)
Definition level_ne_depth (level : Z) : bool :=
  match depth args with
  | ArgInt z => negb (bool_decide (level = z))
  | ArgStr _ => true
  end.

(** The local function [node()] of [scan_level]. *)
Definition node (ttl : string) (size : float) (subcats : list Cat) :
    result Node :=
  fs ← int_of_float (mul (of_Z 10) size);
  Ok {| node_name := ttl; node_count := length subcats; fontsize := fs |}.

(** The local function [edge(n, h)] of [scan_level]. *)
Definition edge (ttl : string) (size : float) (level columns : Z)
    (subcat : Cat) (n : Z) (h : float) : result Edge :=
  let minlen := if level_ne_depth level then n mod columns + 1 else 1 in
  lfs ← int_of_float size;
  Ok {| source := ttl; destination := title subcat;
        minlen := minlen; edge_size := size; edge_hue := h;
        labelfontsize := lfs |}.

(** ** Traversal *)

(** The [for n, subcat in enumerate(subcats)] loop of [scan_level], from
    position [n] on; [recur] is the recursive call
    [self.scan_level(subcat, level - 1, h)]. *)
Fixpoint scan_subcats (recur : Cat → float → Bot → result Bot)
    (ttl : string) (size : float) (level columns : Z)
    (hue : option float) (n : Z) (subcats : list Cat) (st : Bot) :
    result Bot :=
  match subcats with
  | [] => Ok st
  | subcat :: rest =>
      let h := branch_hue hue n in
      e ← edge ttl size level columns subcat n h;
      let st := with_edge e st in
      st ← recur subcat h st;
      let st := recorded e st in
      scan_subcats recur ttl size level columns hue (n + 1) rest st
  end.

Fixpoint scan_level (fuel : nat) (cat : Cat) (level : Z)
    (hue : option float) (st : Bot) : result Bot :=
  match fuel with
  | O => OutOfFuel
  | S fuel' =>
      let ttl := title cat in
      factor ← py_float (downsize args);
      size ← call (float_pow factor level);
      let subcats := sorted (subcategories cat) in
      nd ← node ttl size subcats;
      let st := created nd st in
      if bool_decide (level = 0) || bool_decide (node_limit ≤ counter st)
      then Ok (set_leaves (set_add (node_name nd) (leaves st)) st)
      else
        let columns := columns_of subcats in
        scan_subcats
          (λ subcat h st, scan_level fuel' subcat (level - 1) (Some h) st)
          ttl size level columns hue 0 subcats st
  end.

(** The successful executions of [scan_level] and of its loop, as a
    relation between the state before and the state after. *)
Inductive scans : Cat → Z → option float → Bot → Bot → Prop :=
  | scans_leaf cat level hue st factor size nd :
      py_float (downsize args) = Ok factor →
      float_pow factor level = inr size →
      node (title cat) size (sorted (subcategories cat)) = Ok nd →
      level = 0 ∨ node_limit ≤ counter st + 1 →
      scans cat level hue st
        (set_leaves (set_add (node_name nd) (leaves st)) (created nd st))
  | scans_inner cat level hue st factor size nd st' :
      py_float (downsize args) = Ok factor →
      float_pow factor level = inr size →
      node (title cat) size (sorted (subcategories cat)) = Ok nd →
      level ≠ 0 →
      counter st + 1 < node_limit →
      scans_subcats (title cat) size level
        (columns_of (sorted (subcategories cat))) hue 0
        (sorted (subcategories cat)) (created nd st) st' →
      scans cat level hue st st'
with scans_subcats :
    string → float → Z → Z → option float → Z → list Cat → Bot → Bot → Prop :=
  | scans_nil ttl size level columns hue n st :
      scans_subcats ttl size level columns hue n [] st st
  | scans_cons ttl size level columns hue n subcat rest st e st1 st' :
      edge ttl size level columns subcat n (branch_hue hue n) = Ok e →
      scans subcat (level - 1) (Some (branch_hue hue n)) (with_edge e st) st1 →
      scans_subcats ttl size level columns hue (n + 1) rest (recorded e st1) st' →
      scans_subcats ttl size level columns hue n (subcat :: rest) st st'.

(** What a traversal adds to the graph and to the counter: the node of the
    category first, then the rest; the counter advances by the number of
    nodes added. *)
Definition grows_from (cat : Cat) (st st' : Bot) : Prop :=
  ∃ nd items,
    dot st' = dot st ++ INode nd :: items ∧ node_name nd = title cat
    ∧ counter st' = counter st + 1 + Z.of_nat (length (nodes items)).

Definition grows (st st' : Bot) : Prop :=
  ∃ items,
    dot st' = dot st ++ items
    ∧ counter st' = counter st + Z.of_nat (length (nodes items)).

(** The font size [node()] gives at depth [d]: [int(10 * factor ** d)]. *)
Definition sized (d : Z) (nd : Node) : Prop :=
  ∃ factor size,
    py_float (downsize args) = Ok factor
    ∧ float_pow factor d = inr size
    ∧ int_of_float (mul (of_Z 10) size) = Ok (fontsize nd)
    ∧ fontsize nd = Qtrunc (to_Q (mul (of_Z 10) size)).

(** ** Size limiter *)

(** The total length of the forward lists: what a pruning walk consumes. *)
Definition fw_size (m : gmap string (list string)) : nat :=
  map_fold (λ _ l acc, (length l + acc)%nat) 0%nat m.

(** The [while len(self.rev[n]) == 1] loop of [run], started at [n]. *)
Fixpoint prune_chain (fuel : nat) (n : string) (st : Bot) : result Bot :=
  match fuel with
  | O => OutOfFuel
  | S fuel' =>
      match rev st !!! n with
      | [parent] =>
          let st := set_dot (del_node n (del_edge parent n (dot st))) st in
          l ← list_remove n (fw st !!! parent);
          let st := set_fw (<[parent := l]> (fw st)) st in
          match l with
          | _ :: _ => Ok st
          | [] => prune_chain fuel' parent st
          end
      | _ => Ok st
      end
  end.

(** One turn of that loop at a node [n] whose only recorded parent is
    [parent]: the two deletions and [self.fw[parent].remove(n)]. *)
Definition prune_step (n parent : string) (st : Bot) : result Bot :=
  let st := set_dot (del_node n (del_edge parent n (dot st))) st in
  l ← list_remove n (fw st !!! parent);
  Ok (set_fw (<[parent := l]> (fw st)) st).

Definition prune (n : string) (st : Bot) : result Bot :=
  prune_chain (S (fw_size (fw st))) n st.

(** [for n in self.leaves: ...], the leaves taken in the order [order]. *)
Fixpoint prune_leaves (order : list string) (st : Bot) : result Bot :=
  match order with
  | [] => Ok st
  | n :: rest => st ← prune n st; prune_leaves rest st
  end.

(** The block [if self.counter > 1000: ...] of [run].  A Python set is
    iterated in an order the language leaves open; [iter] is that order. *)
Definition reduce (iter : gset string → list string) (st : Bot) : result Bot :=
  if bool_decide (reduce_threshold < counter st)
  then prune_leaves (iter (leaves st)) st
  else Ok st.

(** Fuel that [scan_level] cannot exhaust from the initial state: the depth
    when it is not negative, the node limit otherwise. *)
Definition scan_fuel (d : Z) : nat :=
  S (Z.to_nat (if bool_decide (0 ≤ d) then d else node_limit)).

(** [run], up to the text written to the .dot file. *)
Definition run (iter : gset string → list string) (root : Cat) :
    result string :=
  d ← py_int (depth args);
  st ← scan_level (scan_fuel d) root d None init;
  st ← reduce iter st;
  Ok (to_string (dot st)).

End CategoryGraphBot.

Scheme scans_mut := Minimality for scans Sort Prop
  with scans_subcats_mut := Minimality for scans_subcats Sort Prop.

(** ** Sample instances of the external collaborators *)

(** [x ** n] by repeated multiplication: exact, and so equal to the C
    library's [pow], whenever every partial product is representable. *)
Definition pow_model (x : float) (n : Z) : exn + float :=
  let p := Z.iter (Z.abs n) (mul x) one in
  let r := if bool_decide (0 ≤ n) then p else div one p in
  match r with
  | S754_infinity _ =>
      if bool_decide (n < 0) && is_zero x then inl ZeroDivisionError
      else inl OverflowError
  | _ => inr r
  end.

Definition digit_of (a : Ascii.ascii) : option Z :=
  let n := Z.of_N (Ascii.N_of_ascii a) in
  if bool_decide (48 ≤ n ≤ 57) then Some (n - 48) else None.

Fixpoint digits_of (acc : Z) (s : string) : option Z :=
  match s with
  | EmptyString => Some acc
  | String a s' =>
      match digit_of a with
      | Some d => digits_of (10 * acc + d) s'
      | None => None
      end
  end.

(** [int(s)] for a run of decimal digits, with or without a minus sign. *)
Definition int_of_str_model (s : string) : exn + Z :=
  let '(neg, body) :=
    match s with
    | String a s' => if decide (String a "" = "-") then (true, s') else (false, s)
    | EmptyString => (false, s)
    end in
  match body with
  | EmptyString => inl ValueError
  | _ =>
      match digits_of 0 body with
      | Some z => inr (if neg : bool then - z else z)
      | None => inl ValueError
      end
  end.

(** [float(s)] for the two texts used below. *)
Definition float_of_str_model (s : string) : exn + float :=
  if decide (s = "1.5") then inr (div (of_Z 3) (of_Z 2))
  else if decide (s = "4") then inr (of_Z 4)
  else inl ValueError.

(** [scan_level] and [run] with these instances; the text written is not
    looked at. *)
Definition sample_scan {Cat} (title : Cat → string) (subs : Cat → list Cat)
    (a : Args) (fuel : nat) (root : Cat) (level : Z) : result Bot :=
  scan_level title subs pow_model float_of_str_model a fuel root level None init.

(** Titles: a letter and sixteen binary digits, so that numeric and
    alphabetic order agree. *)
Fixpoint bin_digits (w : nat) (n : N) : string :=
  match w with
  | O => ""
  | S w' => (if N.testbit n (N.of_nat w') then "1" else "0") +:+ bin_digits w' n
  end.

Fixpoint N_seq (start : N) (len : nat) : list N :=
  match len with
  | O => []
  | S len' => start :: N_seq (N.succ start) len'
  end.

(** A root "R" with [k] subcategories that have none themselves. *)
Definition star_title (c : N) : string :=
  match c with N0 => "R" | _ => "C" +:+ bin_digits 16 c end.
Definition star_subs (k : nat) (c : N) : list N :=
  match c with N0 => N_seq 1 k | _ => [] end.


(** A category that lists itself. *)
Definition loop_title (c : unit) : string := "R".
Definition loop_subs (c : unit) : list unit := [c].

(** Two iteration orders of a set. *)
Definition iter_up (s : gset string) : list string := elements s.
Definition iter_down (s : gset string) : list string := reverse (elements s).

(** ** Notions for the size limiter *)

(** The number of occurrences of [x] in [l]. *)
Definition count (x : string) (l : list string) : nat :=
  length (filter (λ y, y = x) l).



(** What a walk does after its first step. *)
Definition climb (p : string) (st : Bot) : result Bot :=
  match fw st !!! p with
  | [] => prune p st
  | _ :: _ => Ok st
  end.

(** The state a traversal of the chain leaves, with the counter set to
    [cnt]. *)
Definition chain_state (nr na nb nc : Node) (ea eb ec : Edge) (cnt : Z) : Bot :=
  {| dot := [INode nr; IEdge ea; INode na; IEdge eb; INode nb; IEdge ec; INode nc];
     counter := cnt;
     leaves := {[ node_name nc ]};
     rev := <[node_name na := [node_name nr]]>
              (<[node_name nb := [node_name na]]>
                 (<[node_name nc := [node_name nb]]> ∅));
     fw := <[node_name nr := [node_name na]]>
             (<[node_name na := [node_name nb]]>
                (<[node_name nb := [node_name nc]]> ∅)) |}.

(** Plain attributes for a node and an edge of a synthetic graph. *)
Definition sample_node (name : string) : Node :=
  {| node_name := name; node_count := 0; fontsize := 10 |}.
Definition sample_edge (src dst : string) : Edge :=
  {| source := src; destination := dst; minlen := 1; edge_size := one;
     edge_hue := S754_zero false; labelfontsize := 1 |}.

(** The category source of the chain: "root", "A", "B", "C". *)
Definition chain_title (c : N) : string :=
  match c with 0%N => "root" | 1%N => "A" | 2%N => "B" | _ => "C" end.
Definition chain_subs (c : N) : list N :=
  match c with 0%N => [1%N] | 1%N => [2%N] | 2%N => [3%N] | _ => [] end.

(** A serializer: one line per item. *)
Definition item_line (it : item) : string :=
  match it with
  | INode nd => node_name nd
  | IEdge e => source e +:+ " -> " +:+ destination e
  end.
Definition to_string_model (d : list item) : string :=
  String.concat ";" (item_line <$> d).

(** ** Properties of a graph under construction *)



(** The hues of the branches of a root whose subcategories are [rest],
    numbered from [n]: the edge to each subcategory and every edge below it
    carry the fresh hue of its position. *)
Inductive hue_branches {Cat} (title : Cat → string) :
    Z → list Cat → list item → Prop :=
  | hue_branches_nil n : hue_branches title n [] []
  | hue_branches_cons n subcat rest e sub more :
      edge_hue e = fresh_hue n →
      destination e = title subcat →
      Forall (λ e', edge_hue e' = fresh_hue n) (edges sub) →
      hue_branches title (n + 1) rest more →
      hue_branches title n (subcat :: rest) (IEdge e :: sub ++ more).

(** The distance of two hues, as a rational. *)
Definition hue_dist (x y : float) : Q := Qabs (to_Q x - to_Q y).

Definition hue_close (n : Z) : bool :=
  Qle_bool (hue_dist (fresh_hue (n + 18)) (fresh_hue n)) (1 # 2 ^ 45).

(** ** Texts: the tool tip of [node()] and the base file name of [__init__]

    A Python [str] is the sequence of its characters; it is a [string]
    here, one element for each character, which is exact for text whose
    characters are below 256. *)

(** [s.replace(' ', new)] *)
Fixpoint replace_space (new s : string) : string :=
  match s with
  | EmptyString => EmptyString
  | String a s' =>
      if Ascii.eqb a Ascii.Space then new +:+ replace_space new s'
      else String a (replace_space new s')
  end.

(** The characters of a text, and the texts without a space. *)
Definition chars (s : string) : list Ascii.ascii := String.list_ascii_of_string s.

Definition spaceless (s : string) : Prop := Ascii.Space ∉ chars s.

(** [', '.join([c.title(with_ns=False).replace(' ', '&nbsp;') for c in
    subcats])] *)
Definition joined_subs {Cat} (title : Cat → string) (subcats : list Cat) :
    string :=
  String.concat ", " ((λ c, replace_space "&nbsp;" (title c)) <$> subcats).

(** [if len(subs) > 1000: subs = subs[:1000] + ' ...'] *)
Definition shorten (subs : string) : string :=
  if bool_decide (1000 < String.length subs)%nat
  then String.substring 0 1000 subs +:+ " ..."
  else subs.

(** The text [subs] that [node()] puts in the tool tip, after the title. *)
Definition subs_text {Cat} (title : Cat → string) (subcats : list Cat) :
    string :=
  shorten (joined_subs title subcats).

(** The category title and the base file name [__init__] settles on.
    [rest] and [to] are the values of the namespace ([--to] without a value
    leaves [None]); [asked_title] and [asked_to] are what
    [pywikibot.input] returns at the two prompts. *)
Definition cat_title (rest asked_title : string) : string :=
  if decide (rest = "?") then asked_title else rest.

Definition base_name (to : option string) (rest asked_title asked_to : string) :
    string :=
  let to := if decide (to = Some "?") then Some asked_to else to in
  match to with
  | None | Some EmptyString => replace_space "_" (cat_title rest asked_title)
  | Some name => name
  end.

(** ** Counting in the graph *)

(** The number of edges from [p] to [n] in a graph, and of nodes named
    [n]. *)
Definition edge_count (p n : string) (d : list item) : nat :=
  length (filter (is_edge p n) d).


(** The floats [int()] converts: zeros and finite numbers. *)
Definition finite (x : float) : Prop :=
  match x with
  | S754_zero _ | S754_finite _ _ _ => True
  | S754_infinity _ | S754_nan => False
  end.

(** The powers of the scaling factor down from [level] are finite, and so
    are their tenfolds: what [node()] and [edge()] need for their calls of
    [int()]. *)
Definition sizes_finite (float_pow : float → Z → exn + float)
    (factor : float) (level : Z) : Prop :=
  ∀ l, 0 ≤ l ≤ level →
    ∃ size, float_pow factor l = inr size
      ∧ finite size ∧ finite (mul (of_Z 10) size).

(** ** More sample graphs *)

(** The state a computation returns. *)
Definition get (r : result Bot) : Bot :=
  match r with Ok st => st | _ => init end.

(** The chain "root", "A", "B", "C" with a counter above the threshold. *)
Definition sample_chain : Bot :=
  chain_state (sample_node "root") (sample_node "A") (sample_node "B")
    (sample_node "C") (sample_edge "root" "A") (sample_edge "A" "B")
    (sample_edge "B" "C") 1001.

(** A category "R" that lists "A", which lists "R". *)
Definition ring_title (c : bool) : string := if c then "A" else "R".
Definition ring_subs (c : bool) : list bool := [negb c].

Definition ring_scanned : Bot :=
  get (sample_scan ring_title ring_subs default_args 3 false 2).

(** Two nodes, each the one recorded parent of the other. *)
Definition cycle_state : Bot :=
  {| dot := [INode (sample_node "A"); INode (sample_node "B");
             IEdge (sample_edge "A" "B"); IEdge (sample_edge "B" "A")];
     counter := 1001;
     leaves := {[ "A" ]};
     rev := <["A" := ["B"]]> (<["B" := ["A"]]> ∅);
     fw := <["A" := ["B"]]> (<["B" := ["A"]]> ∅) |}.

(** A root "R" with the subcategories "A" and "B"; both list "C", and "A"
    lists "D" as well. *)
Definition diamond_title (c : N) : string :=
  match c with
  | 0%N => "R" | 1%N => "A" | 2%N => "B" | 3%N => "C" | _ => "D"
  end.
Definition diamond_subs (c : N) : list N :=
  match c with
  | 0%N => [1%N; 2%N]
  | 1%N => [3%N; 4%N]
  | 2%N => [3%N]
  | _ => []
  end.

(** The state its traversal at depth 2 leaves; the same with the counter
    set above the threshold; and what the limiter makes of that and of the
    chain, the leaves taken in ascending order. *)
Definition diamond_scanned : Bot :=
  get (sample_scan diamond_title diamond_subs default_args 3 0%N 2).

Definition diamond_state : Bot := set_counter 1001 diamond_scanned.

Definition diamond_reduced : Bot := get (reduce iter_up diamond_state).

Definition chain_reduced : Bot := get (reduce iter_up sample_chain).

(** ** Notions for the added properties *)

(** What a traversal adds to the index is what it adds to the graph. *)
Definition mirrors_from (st st' : Bot) : Prop :=
  ∀ p n,
    (count n (fw st' !!! p) + edge_count p n (dot st)
     = count n (fw st !!! p) + edge_count p n (dot st'))%nat
    ∧ (count p (rev st' !!! n) + edge_count p n (dot st)
       = count p (rev st !!! n) + edge_count p n (dot st'))%nat.

(** A child the limiter does not take from its parent: one whose recorded
    parents are not exactly one, or one that is no leaf and has no recorded
    child. *)
Definition stays (c : string) (order : list string) (st : Bot) : Prop :=
  (∀ q, rev st !!! c ≠ [q]) ∨ ((c ∉ order) ∧ fw st !!! c = []).





(** * Basic facts *)

Lemma set_add_union x s : set_add x s = {[x]} ∪ s.
Proof.
  destruct s as [m]. apply set_eq. intros y.
  rewrite elem_of_union, elem_of_singleton.
  change (<[x:=()]> m !! y = Some () ↔ y = x ∨ m !! y = Some ()).
  destruct (decide (x = y)) as [->|Hne].
  - rewrite lookup_insert_eq. tauto.
  - rewrite lookup_insert_ne by done. intuition congruence.
Qed.

Lemma bind_Ok {A B} (r : result A) (f : A → result B) b :
  r ≫= f = Ok b → ∃ a, r = Ok a ∧ f a = Ok b.
Proof. destruct r; simpl; intros; [eauto | discriminate..]. Qed.

Lemma bind_not_OutOfFuel {A B} (r : result A) (f : A → result B) :
  r ≠ OutOfFuel → (∀ a, r = Ok a → f a ≠ OutOfFuel) → r ≫= f ≠ OutOfFuel.
Proof. destruct r; simpl; intros; [eauto | discriminate | done]. Qed.

Lemma bind_Ok_l {A B} (a : A) (f : A → result B) : Ok a ≫= f = f a.
Proof. reflexivity. Qed.

Lemma call_Ok {A} (r : exn + A) a : call r = Ok a → r = inr a.
Proof. destruct r; simpl; congruence. Qed.

Lemma call_not_OutOfFuel {A} (r : exn + A) : call r ≠ OutOfFuel.
Proof. by destruct r. Qed.

(** Splits a successful sequence of steps into its successful steps. *)
Ltac inv_bind H :=
  repeat match type of H with
  | _ ≫= _ = Ok _ =>
      let a := fresh "a" in let Ha := fresh "Ha" in
      apply bind_Ok in H as (a & Ha & H); try apply call_Ok in Ha
  end.

Section Traversal.

Context {Cat : Type}.
Variable title : Cat → string.
Variable subcategories : Cat → list Cat.
Variable float_pow : float → Z → exn + float.
Variable float_of_str : string → exn + float.
Variable args : Args.

Local Abbreviation scan_level := (scan_level title subcategories float_pow float_of_str args).
Local Abbreviation scan_subcats := (scan_subcats title args).
Local Abbreviation grows_from := (grows_from title).
Local Abbreviation scans := (scans title subcategories float_pow float_of_str args).
Local Abbreviation scans_subcats := (scans_subcats title subcategories float_pow float_of_str args).
Local Abbreviation sorted := (sorted title).

Lemma scan_level_S fuel cat level hue st :
  scan_level (S fuel) cat level hue st =
    (factor ← py_float float_of_str (downsize args);
     size ← call (float_pow factor level);
     nd ← node (title cat) size (sorted (subcategories cat));
     if bool_decide (level = 0)
        || bool_decide (node_limit ≤ counter (created nd st))
     then Ok (set_leaves (set_add (node_name nd) (leaves (created nd st)))
                (created nd st))
     else scan_subcats
            (λ subcat h st, scan_level fuel subcat (level - 1) (Some h) st)
            (title cat) size level (columns_of (sorted (subcategories cat)))
            hue 0 (sorted (subcategories cat)) (created nd st)).
Proof. reflexivity. Qed.

Lemma scan_subcats_cons recur ttl size level columns hue n subcat rest st :
  scan_subcats recur ttl size level columns hue n (subcat :: rest) st =
    (e ← edge title args ttl size level columns subcat n (branch_hue hue n);
     st1 ← recur subcat (branch_hue hue n) (with_edge e st);
     scan_subcats recur ttl size level columns hue (n + 1) rest
       (recorded e st1)).
Proof. reflexivity. Qed.

Lemma scan_subcats_scans recur ttl size level columns hue :
  (∀ subcat h st st', recur subcat h st = Ok st' →
      scans subcat (level - 1) (Some h) st st') →
  ∀ rest n st st',
    scan_subcats recur ttl size level columns hue n rest st = Ok st' →
    scans_subcats ttl size level columns hue n rest st st'.
Proof.
  intros Hrec rest. induction rest as [|subcat rest IH]; intros n st st' H.
  - simpl in H. injection H as <-. constructor.
  - simpl in H. inv_bind H.
    eapply scans_cons; eauto.
Qed.

(** Every successful run of the function is an execution of the relation. *)
Lemma scan_level_scans fuel : ∀ cat level hue st st',
  scan_level fuel cat level hue st = Ok st' → scans cat level hue st st'.
Proof.
  induction fuel as [|fuel IH]; intros cat level hue st st' H; [discriminate|].
  rewrite scan_level_S in H. inv_bind H.
  destruct (_ || _) eqn:Hc.
  - injection H as <-. eapply scans_leaf; eauto.
    apply orb_true_iff in Hc as [Hc|Hc]; apply bool_decide_eq_true in Hc;
      [left | right]; done.
  - apply orb_false_iff in Hc as [Hc1 Hc2].
    apply bool_decide_eq_false in Hc1, Hc2. simpl in Hc2.
    eapply scans_inner; eauto; [lia|].
    eapply scan_subcats_scans; [|exact H].
    intros subcat h st0 st0' H0. by apply IH.
Qed.

Lemma node_Ok ttl size (subcats : list Cat) nd :
  node ttl size subcats = Ok nd →
  node_name nd = ttl ∧ node_count nd = length subcats
  ∧ int_of_float (mul (of_Z 10) size) = Ok (fontsize nd).
Proof.
  unfold node. intros H. inv_bind H. injection H as <-. by simpl.
Qed.

Lemma edge_Ok ttl size level columns subcat n h e :
  edge title args ttl size level columns subcat n h = Ok e →
  source e = ttl ∧ destination e = title subcat ∧ edge_hue e = h
  ∧ minlen e = (if level_ne_depth args level then n mod columns + 1 else 1).
Proof.
  unfold edge. intros H. inv_bind H. injection H as <-. by simpl.
Qed.

Lemma nodes_app d1 d2 : nodes (d1 ++ d2) = nodes d1 ++ nodes d2.
Proof. apply omap_app. Qed.

Lemma scans_grows cat level hue st st' :
  scans cat level hue st st' → grows_from cat st st'.
Proof.
  revert cat level hue st st'.
  apply (scans_mut _ title subcategories float_pow float_of_str args
           (λ cat _ _ st st', grows_from cat st st')
           (λ _ _ _ _ _ _ _ st st', grows st st')).
  - intros cat level hue st factor size nd _ _ Hnd _.
    apply node_Ok in Hnd as (Hname & _).
    exists nd, []. simpl. repeat split; [done | lia].
  - intros cat level hue st factor size nd st' _ _ Hnd _ _ _ (items & Hd & Hc).
    apply node_Ok in Hnd as (Hname & _).
    exists nd, items. simpl in Hd, Hc. unfold add_node in Hd.
    rewrite <- app_assoc in Hd. repeat split; [done.. | lia].
  - intros. exists []. simpl. split; [by rewrite app_nil_r | lia].
  - intros ttl size level columns hue n subcat rest st e st1 st' _ _
      (nd & i1 & Hd1 & _ & Hc1) _ (i2 & Hd2 & Hc2).
    simpl in Hd1, Hc1, Hd2, Hc2. unfold add_edge in Hd1.
    exists (IEdge e :: INode nd :: i1 ++ i2). split.
    + rewrite Hd2, Hd1, <- !app_assoc. done.
    + change (IEdge e :: INode nd :: i1 ++ i2)
        with ([IEdge e; INode nd] ++ (i1 ++ i2)).
      rewrite !nodes_app, !length_app. simpl. lia.
Qed.

(** The loop over subcategories that are visited at level 0: each of them
    becomes a leaf, so the counter advances by their number. *)
Lemma scan_subcats_leaves fuel factor s0 fs0 lfs ttl size level columns hue :
  py_float float_of_str (downsize args) = Ok factor →
  float_pow factor 0 = inr s0 →
  int_of_float (mul (of_Z 10) s0) = Ok fs0 →
  int_of_float size = Ok lfs →
  ∀ rest n st, ∃ st',
    scan_subcats
      (λ subcat h st, scan_level (S fuel) subcat 0 (Some h) st)
      ttl size level columns hue n rest st = Ok st'
    ∧ counter st' = counter st + Z.of_nat (length rest).
Proof.
  intros Hf Hp Hfs Hlfs rest.
  induction rest as [|subcat rest IH]; intros n st.
  - exists st. simpl. split; [done | lia].
  - rewrite scan_subcats_cons. unfold edge. rewrite Hlfs, !bind_Ok_l.
    rewrite scan_level_S, Hf, bind_Ok_l, Hp. simpl call. rewrite bind_Ok_l.
    unfold node. rewrite Hfs, !bind_Ok_l.
    rewrite (bool_decide_eq_true_2 (0 = 0)) by done. rewrite orb_true_l.
    rewrite bind_Ok_l.
    match goal with
    | |- context [scan_subcats ?r _ _ _ _ _ _ _ ?st1] =>
        destruct (IH (n + 1) st1) as (st' & Hst' & Hc)
    end.
    exists st'. split; [exact Hst' |].
    rewrite Hc. simpl. lia.
Qed.

End Traversal.

(** * The counter and the node limit *)

Section Counter.

Context {Cat : Type}.
Variable title : Cat → string.
Variable subcategories : Cat → list Cat.
Variable float_pow : float → Z → exn + float.
Variable float_of_str : string → exn + float.
Variable args : Args.

Local Abbreviation scan_level := (scan_level title subcategories float_pow float_of_str args).

(** C1 (as amended).  A traversal only appends to the graph; the counter
    advances by exactly the number of nodes it appends, and so strictly
    grows; a call that finds the counter at the limit after its own node
    adds that node, records it as a leaf and does nothing else.  (The
    counter is not bounded by the limit: the loop over the subcategories of
    a level that is already open goes on creating nodes.) *)
Theorem counter_counts_created_nodes fuel cat level hue st st' :
  scan_level fuel cat level hue st = Ok st' →
  (∃ items, dot st' = dot st ++ items
      ∧ counter st' = counter st + Z.of_nat (length (nodes items)))
  ∧ counter st < counter st'
  ∧ (node_limit ≤ counter st + 1 →
       ∃ nd, node_name nd = title cat
         ∧ st' = set_leaves (set_add (title cat) (leaves st)) (created nd st)).
Proof.
  intros H. pose proof (scan_level_scans _ _ _ _ _ _ _ _ _ _ _ H) as Hs.
  apply scans_grows in Hs as (nd & items & Hd & Hn & Hc).
  split; [|split].
  - exists (INode nd :: items). split; [done|].
    change (INode nd :: items) with ([INode nd] ++ items).
    rewrite nodes_app, length_app. simpl. lia.
  - lia.
  - intros Hlim. destruct fuel as [|fuel]; [discriminate|].
    rewrite scan_level_S in H. inv_bind H.
    rewrite (bool_decide_eq_true_2 (node_limit ≤ _)) in H by (simpl; lia).
    rewrite orb_true_r in H. injection H as <-.
    apply node_Ok in Ha1 as (Hname & _).
    exists a1. by rewrite Hname.
Qed.

End Counter.

Lemma sorted_length {Cat} (title : Cat → string) (l : list Cat) :
  length (sorted title l) = length l.
Proof.
  assert (Hins : ∀ c l', length (insert_sorted title c l') = S (length l')).
  { intros c l'. induction l' as [|c' l' IH]; simpl; [done|].
    destruct (String.ltb _ _); simpl; by rewrite ?IH. }
  unfold sorted. induction l as [|c l IH]; simpl; [done|].
  by rewrite Hins, IH.
Qed.

Lemma N_seq_length start len : length (N_seq start len) = len.
Proof. revert start. induction len; intros; simpl; by rewrite ?IHlen. Qed.

(** A root with [k] childless subcategories, at depth 1: [k + 1] nodes. *)
Lemma star_counter k :
  ∃ st', sample_scan star_title (star_subs k)
           {| depth := ArgInt 1; downsize := ArgInt 4 |} 2 0%N 1 = Ok st'
         ∧ counter st' = 1 + Z.of_nat k.
Proof.
  unfold sample_scan. rewrite scan_level_S.
  change (py_float float_of_str_model (downsize _)) with (Ok (A:=float) (of_Z 4)).
  rewrite bind_Ok_l.
  change (call (pow_model (of_Z 4) 1)) with (Ok (A:=float) (of_Z 4)).
  rewrite bind_Ok_l.
  change (star_subs k 0%N) with (N_seq 1 k).
  unfold node.
  change (int_of_float (mul (of_Z 10) (of_Z 4))) with (Ok (A:=Z) 40).
  rewrite !bind_Ok_l. change (1 - 1) with 0.
  rewrite (bool_decide_eq_false_2 (1 = 0)) by done.
  rewrite (bool_decide_eq_false_2 (node_limit ≤ _)) by (simpl; unfold node_limit; lia).
  rewrite orb_false_l.
  match goal with
  | |- context [scan_subcats _ _ _ ?ttl ?size ?level ?columns ?hue ?n ?rest ?st1] =>
      destruct (scan_subcats_leaves star_title (star_subs k) pow_model
                  float_of_str_model {| depth := ArgInt 1; downsize := ArgInt 4 |}
                  0 (of_Z 4) (of_Z 1) 10 4 ttl size level columns hue
                  eq_refl eq_refl eq_refl eq_refl rest n st1)
        as (st' & Hst' & Hc)
  end.
  exists st'. split; [exact Hst' |].
  rewrite Hc, sorted_length, N_seq_length. simpl. lia.
Qed.

(** C1, the counterexample: a root with as many subcategories as the node
    limit, at depth 1, leaves the counter above the limit, at 10001. *)
Lemma counter_exceeds_limit :
  ∃ st', sample_scan star_title (star_subs (Z.to_nat node_limit))
           {| depth := ArgInt 1; downsize := ArgInt 4 |} 2 0%N 1 = Ok st'
         ∧ counter st' = 10001 ∧ node_limit < counter st'.
Proof.
  destruct (star_counter (Z.to_nat node_limit)) as (st' & H & Hc).
  exists st'. split; [exact H |].
  rewrite Hc. unfold node_limit. lia.
Qed.

(** * Edges and their endpoints *)




Section Endpoints.

Context {Cat : Type}.
Variable title : Cat → string.
Variable subcategories : Cat → list Cat.
Variable float_pow : float → Z → exn + float.
Variable float_of_str : string → exn + float.
Variable args : Args.

Local Abbreviation scan_level := (scan_level title subcategories float_pow float_of_str args).



End Endpoints.

(** * Termination of the traversal *)

Lemma int_of_float_not_OutOfFuel x : int_of_float x ≠ OutOfFuel.
Proof. by destruct x. Qed.

Section Termination.

Context {Cat : Type}.
Variable title : Cat → string.
Variable subcategories : Cat → list Cat.
Variable float_pow : float → Z → exn + float.
Variable float_of_str : string → exn + float.
Variable args : Args.

Local Abbreviation scan_level := (scan_level title subcategories float_pow float_of_str args).
Local Abbreviation scan_subcats := (scan_subcats title args).

Lemma py_float_not_OutOfFuel a : py_float float_of_str a ≠ OutOfFuel.
Proof.
  destruct a as [z|s]; simpl; [by destruct (of_Z z) | apply call_not_OutOfFuel].
Qed.

Lemma node_not_OutOfFuel ttl size (subcats : list Cat) :
  node ttl size subcats ≠ OutOfFuel.
Proof.
  unfold node. apply bind_not_OutOfFuel; [apply int_of_float_not_OutOfFuel | done].
Qed.

Lemma edge_not_OutOfFuel ttl size level columns subcat n h :
  edge title args ttl size level columns subcat n h ≠ OutOfFuel.
Proof.
  unfold edge. apply bind_not_OutOfFuel; [apply int_of_float_not_OutOfFuel | done].
Qed.

(** The loop does not run out of fuel when the recursive call does not, on
    the states the loop can reach: those whose counter is at least [c]. *)
Lemma scan_subcats_not_OutOfFuel recur ttl size level columns hue c :
  (∀ subcat h st, c ≤ counter st → recur subcat h st ≠ OutOfFuel) →
  (∀ subcat h st st', recur subcat h st = Ok st' → counter st ≤ counter st') →
  ∀ rest n st, c ≤ counter st →
    scan_subcats recur ttl size level columns hue n rest st ≠ OutOfFuel.
Proof.
  intros Hrec Hmono rest.
  induction rest as [|subcat rest IH]; intros n st Hc; [done|].
  rewrite scan_subcats_cons.
  apply bind_not_OutOfFuel; [apply edge_not_OutOfFuel |].
  intros e _. apply bind_not_OutOfFuel; [by apply Hrec |].
  intros st1 Hst1. apply IH. apply Hmono in Hst1. simpl in *. lia.
Qed.

Lemma scan_level_counter_mono fuel cat level hue st st' :
  scan_level fuel cat level hue st = Ok st' → counter st ≤ counter st'.
Proof.
  intros H. apply scan_level_scans, scans_grows in H as (? & ? & _ & _ & ?).
  lia.
Qed.

(** Enough fuel: more than the depth when it is not negative, or more
    than the room left below the node limit. *)
Lemma scan_level_enough_fuel fuel cat level hue st :
  0 ≤ level < Z.of_nat fuel
  ∨ ((0 < fuel)%nat ∧ node_limit - 1 - counter st < Z.of_nat fuel) →
  scan_level fuel cat level hue st ≠ OutOfFuel.
Proof.
  revert cat level hue st.
  induction fuel as [|fuel IH]; intros cat level hue st Hfuel; [lia|].
  rewrite scan_level_S.
  apply bind_not_OutOfFuel; [apply py_float_not_OutOfFuel |]. intros factor _.
  apply bind_not_OutOfFuel; [apply call_not_OutOfFuel |]. intros size _.
  apply bind_not_OutOfFuel; [apply node_not_OutOfFuel |]. intros nd _.
  destruct (_ || _) eqn:Hc; [done|].
  apply orb_false_iff in Hc as [Hc1 Hc2].
  apply bool_decide_eq_false in Hc1, Hc2. simpl in Hc2.
  apply scan_subcats_not_OutOfFuel with (c := counter st + 1).
  - intros subcat h st1 Hst1. apply IH. lia.
  - intros subcat h st1 st2. apply scan_level_counter_mono.
  - simpl. lia.
Qed.


(** More fuel does not change a result. *)
Lemma scan_subcats_ext r1 r2 ttl size level columns hue :
  (∀ subcat h st, r1 subcat h st ≠ OutOfFuel → r2 subcat h st = r1 subcat h st) →
  ∀ rest n st,
    scan_subcats r1 ttl size level columns hue n rest st ≠ OutOfFuel →
    scan_subcats r2 ttl size level columns hue n rest st
    = scan_subcats r1 ttl size level columns hue n rest st.
Proof.
  intros Hext rest. induction rest as [|subcat rest IH]; intros n st H; [done|].
  rewrite !scan_subcats_cons in *.
  destruct (edge title args ttl size level columns subcat n (branch_hue hue n))
    as [e| |]; simpl in *; try done.
  destruct (r1 subcat (branch_hue hue n) (with_edge e st)) as [st1| |] eqn:Hr;
    simpl in *; [| |done].
  - rewrite Hext by (by rewrite Hr). rewrite Hr. simpl. by apply IH.
  - rewrite Hext by (by rewrite Hr). by rewrite Hr.
Qed.

Lemma scan_level_fuel_mono fuel : ∀ fuel' cat level hue st,
  (fuel ≤ fuel')%nat →
  scan_level fuel cat level hue st ≠ OutOfFuel →
  scan_level fuel' cat level hue st = scan_level fuel cat level hue st.
Proof.
  induction fuel as [|fuel IH]; intros fuel' cat level hue st Hle H; [done|].
  destruct fuel' as [|fuel']; [lia|].
  rewrite !scan_level_S in *.
  destruct (py_float float_of_str (downsize args)) as [factor| |];
    simpl in *; try done.
  destruct (call (float_pow factor level)) as [size| |]; simpl in *; try done.
  destruct (node (title cat) size (sorted title (subcategories cat)))
    as [nd| |]; simpl in *; try done.
  destruct (_ || _); [done|].
  apply scan_subcats_ext; [|done].
  intros subcat h st1 Hne. apply IH; [lia | done].
Qed.

(** C3.  [scan_level] terminates on every category source, cyclic or
    not: a call at a depth [level ≥ 0] never needs more than [level + 1]
    nested calls, whatever the source, because the recursive call is made
    at [level - 1] and none is made at level 0; and at any depth, negative
    ones included, no call is nested deeper than the room the counter has
    left below the node limit, because none is made once the limit is
    reached.  With that much fuel the model returns the result of the
    function: more fuel gives the same. *)
Theorem scan_level_terminates fuel cat level hue st :
  0 ≤ level < Z.of_nat fuel
  ∨ ((0 < fuel)%nat ∧ node_limit - 1 - counter st < Z.of_nat fuel) →
  scan_level fuel cat level hue st ≠ OutOfFuel
  ∧ ∀ fuel', (fuel ≤ fuel')%nat →
      scan_level fuel' cat level hue st = scan_level fuel cat level hue st.
Proof.
  intros Hfuel.
  assert (H : scan_level fuel cat level hue st ≠ OutOfFuel)
    by (by apply scan_level_enough_fuel).
  split; [exact H |].
  intros fuel' Hle. by apply scan_level_fuel_mono.
Qed.

End Termination.

(** * Font sizes *)

(** [int(x)] is the value of [x] with its fraction dropped. *)
Lemma int_of_float_Qtrunc x z :
  int_of_float x = Ok z → z = Qtrunc (to_Q x).
Proof.
  destruct x as [s| | |s m e]; simpl; intros H; try discriminate.
  - by injection H as <-.
  - injection H as <-. unfold trunc_finite, Qtrunc.
    destruct (0 <=? e) eqn:He.
    + rewrite Qfloor_Z, Qceiling_Z.
      destruct s, (Qle_bool _ _); simpl; lia.
    + apply Z.leb_gt in He.
      assert (Hp : 0 < 2 ^ (- e)) by (apply Z.pow_pos_nonneg; lia).
      destruct s; simpl.
      * unfold Qceiling, Qfloor. simpl. rewrite Z2Pos.id by done. done.
      * unfold Qfloor. rewrite Z2Pos.id by done. done.
Qed.

Section FontSize.

Context {Cat : Type}.
Variable title : Cat → string.
Variable subcategories : Cat → list Cat.
Variable float_pow : float → Z → exn + float.
Variable float_of_str : string → exn + float.
Variable args : Args.

Local Abbreviation scan_level := (scan_level title subcategories float_pow float_of_str args).

Local Abbreviation sized := (sized float_pow float_of_str args).

Lemma node_sized cat level factor size nd :
  py_float float_of_str (downsize args) = Ok factor →
  float_pow factor level = inr size →
  node (title cat) size (sorted title (subcategories cat)) = Ok nd →
  sized level nd.
Proof.
  intros Hf Hp Hnd. apply node_Ok in Hnd as (_ & _ & Hfs).
  exists factor, size. repeat split; [done.. |].
  by apply int_of_float_Qtrunc.
Qed.

Lemma scans_sized cat level hue st st' :
  scans title subcategories float_pow float_of_str args cat level hue st st' →
  ∃ nd items,
    dot st' = dot st ++ INode nd :: items ∧ node_name nd = title cat
    ∧ sized level nd
    ∧ Forall (λ nd', ∃ d, d < level ∧ sized d nd') (nodes items).
Proof.
  revert cat level hue st st'.
  apply (scans_mut _ title subcategories float_pow float_of_str args
           (λ cat level _ st st', ∃ nd items,
              dot st' = dot st ++ INode nd :: items ∧ node_name nd = title cat
              ∧ sized level nd
              ∧ Forall (λ nd', ∃ d, d < level ∧ sized d nd') (nodes items))
           (λ _ _ level _ _ _ _ st st', ∃ items,
              dot st' = dot st ++ items
              ∧ Forall (λ nd', ∃ d, d < level ∧ sized d nd') (nodes items))).
  - intros cat level hue st factor size nd Hf Hp Hnd _.
    exists nd, []. simpl. repeat split; eauto using node_sized.
    by apply node_Ok in Hnd as (? & _).
  - intros cat level hue st factor size nd st' Hf Hp Hnd _ _ _ (items & Hd & Hall).
    exists nd, items. simpl in Hd. unfold add_node in Hd.
    rewrite <- app_assoc in Hd. repeat split; eauto using node_sized.
    by apply node_Ok in Hnd as (? & _).
  - intros. exists []. simpl. by rewrite app_nil_r.
  - intros ttl size level columns hue n subcat rest st e st1 st' _ _
      (nd & i1 & Hd1 & _ & Hs1 & Hall1) _ (i2 & Hd2 & Hall2).
    simpl in Hd1, Hd2. unfold add_edge in Hd1.
    exists ([IEdge e; INode nd] ++ i1 ++ i2). split.
    + rewrite Hd2, Hd1, <- !app_assoc. done.
    + rewrite !nodes_app. simpl. apply Forall_cons. split.
      * exists (level - 1). split; [lia | done].
      * apply Forall_app. split; [|done].
        eapply Forall_impl; [exact Hall1 |].
        intros nd' (d & Hd & Hs). exists d. split; [lia | done].
Qed.

(** C4 (as amended).  The node of a category visited with
    [depthRemaining = level] gets the font size [int(10 * factor ** level)]:
    the product with its fraction dropped, not the nearest integer; and
    so does every node created below it, at its own smaller depth. *)
Theorem fontsize_truncates fuel cat level hue st st' :
  scan_level fuel cat level hue st = Ok st' →
  ∃ nd items,
    dot st' = dot st ++ INode nd :: items ∧ node_name nd = title cat
    ∧ (∃ factor size,
         py_float float_of_str (downsize args) = Ok factor
         ∧ float_pow factor level = inr size
         ∧ int_of_float (mul (of_Z 10) size) = Ok (fontsize nd)
         ∧ fontsize nd = Qtrunc (to_Q (mul (of_Z 10) size)))
    ∧ Forall (λ nd', ∃ d, d < level ∧ sized d nd') (nodes items).
Proof.
  intros H. by apply scan_level_scans, scans_sized in H.
Qed.

End FontSize.

(** * The traversal on sample sources *)

Lemma counter_counts_created_nodes_witness :
  ∃ st', sample_scan star_title (star_subs 3) default_args 3 0%N 2 = Ok st'
         ∧ counter init < counter st'.
Proof.
  eexists. split; [vm_compute; reflexivity |].
  eapply (counter_counts_created_nodes star_title (star_subs 3) pow_model
            float_of_str_model default_args 3 0%N 2 None init).
  vm_compute. reflexivity.
Defined.



Lemma scan_level_terminates_witness :
  scan_level loop_title loop_subs pow_model float_of_str_model default_args
    3 () 2 None init ≠ OutOfFuel.
Proof.
  apply scan_level_terminates. left. lia.
Defined.

(** C4, the counterexample: with [-downsize 1.5] the node visited at depth 3
    gets [int(33.75) = 33], and [round(33.75)] is 34. *)
Lemma fontsize_is_not_rounded :
  ∃ st' nd size,
    sample_scan star_title (star_subs 0)
      {| depth := ArgInt 3; downsize := ArgStr "1.5" |} 4 0%N 3 = Ok st'
    ∧ dot st' = [INode nd]
    ∧ pow_model (div (of_Z 3) (of_Z 2)) 3 = inr size
    ∧ fontsize nd = 33
    ∧ round_of_float (mul (of_Z 10) size) = Ok 34.
Proof.
  do 3 eexists. split; [vm_compute; reflexivity |].
  split; [reflexivity |]. split; [vm_compute; reflexivity |].
  split; vm_compute; reflexivity.
Qed.

Lemma fontsize_truncates_witness :
  ∃ st', sample_scan star_title (star_subs 3) default_args 3 0%N 2 = Ok st'
         ∧ ∃ nd items, dot st' = dot init ++ INode nd :: items ∧ fontsize nd = 160.
Proof.
  eexists. split; [vm_compute; reflexivity |].
  edestruct (fontsize_truncates star_title (star_subs 3) pow_model
            float_of_str_model default_args 3 0%N 2 None init)
    as (nd & items & Hd & _ & _ & _); [vm_compute; reflexivity |].
  exists nd, items. split; [exact Hd |].
  simpl in Hd. injection Hd as <- _. reflexivity.
Defined.

(** * Hues *)

Lemma edges_app d1 d2 : edges (d1 ++ d2) = edges d1 ++ edges d2.
Proof. apply omap_app. Qed.

Lemma hue_close_first_periods n : 0 ≤ n < 360 → hue_close n = true.
Proof.
  intros Hn.
  assert (H : forallb hue_close (seqZ 0 360) = true)
    by (vm_cast_no_check (eq_refl true)).
  rewrite forallb_forall in H. apply H.
  apply list_elem_of_In, elem_of_seqZ. lia.
Qed.

Section Hue.

Context {Cat : Type}.
Variable title : Cat → string.
Variable subcategories : Cat → list Cat.
Variable float_pow : float → Z → exn + float.
Variable float_of_str : string → exn + float.
Variable args : Args.

Local Abbreviation scan_level := (scan_level title subcategories float_pow float_of_str args).

(** Below a branch that has a hue every edge carries that hue; at the root,
    which has none, the branches are coloured by position. *)
Lemma scans_hue cat level hue st st' :
  scans title subcategories float_pow float_of_str args cat level hue st st' →
  ∃ nd items,
    dot st' = dot st ++ INode nd :: items
    ∧ (∀ h, hue = Some h → Forall (λ e, edge_hue e = h) (edges items))
    ∧ (hue = None →
         items = [] ∨ hue_branches title 0 (sorted title (subcategories cat)) items).
Proof.
  revert cat level hue st st'.
  apply (scans_mut _ title subcategories float_pow float_of_str args
           (λ cat _ hue st st', ∃ nd items,
              dot st' = dot st ++ INode nd :: items
              ∧ (∀ h, hue = Some h → Forall (λ e, edge_hue e = h) (edges items))
              ∧ (hue = None →
                   items = []
                   ∨ hue_branches title 0 (sorted title (subcategories cat)) items))
           (λ _ _ _ _ hue n rest st st', ∃ items,
              dot st' = dot st ++ items
              ∧ (∀ h, hue = Some h → Forall (λ e, edge_hue e = h) (edges items))
              ∧ (hue = None → hue_branches title n rest items))).
  - intros cat level hue st factor size nd _ _ _ _.
    exists nd, []. simpl. repeat split; [by constructor | by left].
  - intros cat level hue st factor size nd st' _ _ _ _ _ _ (items & Hd & Hh & Hn).
    exists nd, items. simpl in Hd. unfold add_node in Hd.
    rewrite <- app_assoc in Hd. repeat split; [done.. |].
    intros Hnone. right. by apply Hn.
  - intros ttl size level columns hue n st. exists []. simpl.
    rewrite app_nil_r. repeat split; [by constructor | by constructor].
  - intros ttl size level columns hue n subcat rest st e st1 st' He _
      (nd & i1 & Hd1 & Hh1 & _) _ (i2 & Hd2 & Hh2 & Hn2).
    apply edge_Ok in He as (_ & Hdst & Hhue & _).
    simpl in Hd1, Hd2. unfold add_edge in Hd1.
    exists (IEdge e :: (INode nd :: i1) ++ i2). split; [|split].
    + rewrite Hd2, Hd1, <- !app_assoc. done.
    + intros h ->. simpl in *. apply Forall_cons. split; [done|].
      rewrite edges_app. apply Forall_app. split; [by apply Hh1 | by apply Hh2].
    + intros ->. simpl in *.
      apply (hue_branches_cons title n subcat rest e (INode nd :: i1) i2);
        [done.. | | by apply Hn2].
      by apply Hh1.
Qed.

(** C7 (as amended).  Without an inherited hue the child at position [n]
    gets the binary64 value of [(11 / 18 * n) % 1]: 0 for the first child
    and the double nearest to 11/18 for the second, so that these two differ
    by exactly that double; the hues of positions [n] and [n + 18] agree to
    within 2^-45 for the first twenty periods, [n < 360] (they are not equal in
    general: rounding makes the hues of positions 1 and 19 differ); and
    every edge below a branch carries the hue of the branch. *)
Theorem hue_of_branches :
  (∀ n, branch_hue None n = mod1 (mul (div (of_Z 11) (of_Z 18)) (of_Z n)))
  ∧ fresh_hue 0 = S754_zero false
  ∧ fresh_hue 1 = div (of_Z 11) (of_Z 18)
  ∧ (to_Q (fresh_hue 1) - to_Q (fresh_hue 0) == to_Q (div (of_Z 11) (of_Z 18)))%Q
  ∧ (Qabs (hue_dist (fresh_hue 1) (fresh_hue 0) - (11 # 18)) <= 1 # 2 ^ 54)%Q
  ∧ (∀ n, 0 ≤ n < 360 →
       (hue_dist (fresh_hue (n + 18)) (fresh_hue n) <= 1 # 2 ^ 45)%Q)
  ∧ (∀ fuel cat level hue st st',
       scan_level fuel cat level hue st = Ok st' →
       ∃ nd items,
         dot st' = dot st ++ INode nd :: items
         ∧ (∀ h, hue = Some h → Forall (λ e, edge_hue e = h) (edges items))
         ∧ (hue = None →
              items = []
              ∨ hue_branches title 0 (sorted title (subcategories cat)) items)).
Proof.
  split; [reflexivity |].
  split; [vm_compute; reflexivity |].
  split; [vm_compute; reflexivity |].
  split; [vm_compute; reflexivity |].
  split; [vm_compute; discriminate |].
  split.
  - intros n Hn. apply Qle_bool_iff. by apply hue_close_first_periods.
  - intros fuel cat level hue st st' H.
    by apply scan_level_scans, scans_hue in H.
Qed.

End Hue.

(** C7, the counterexample: the hue of position 19 is not the hue of
    position 1 (0.6111111111111125 against 0.6111111111111112). *)
Lemma hue_period_is_not_exact :
  fresh_hue (1 + 18) = S754_finite false 5504399544563952 (-53)
  ∧ fresh_hue 1 = S754_finite false 5504399544563940 (-53)
  ∧ fresh_hue (1 + 18) ≠ fresh_hue 1.
Proof.
  split; [vm_compute; reflexivity |].
  split; [vm_compute; reflexivity |].
  vm_compute. discriminate.
Qed.

Lemma hue_of_branches_witness :
  (hue_dist (fresh_hue (1 + 18)) (fresh_hue 1) <= 1 # 2 ^ 45)%Q.
Proof.
  apply (hue_of_branches star_title (star_subs 0) pow_model float_of_str_model
           default_args).
  lia.
Defined.

(** * Edge lengths *)

(** C8 at the failing input: with the depth given on the command line
    ([--depth 2], the text "2") the edges of the topmost level, here from a
    root with five subcategories, get the staggered lengths of the deeper
    levels and not the length 1 that the default depth (the int 2) gives. *)
Theorem top_level_minlen_with_depth_text :
  (∃ st', py_int int_of_str_model (ArgStr "2") = Ok 2
     ∧ sample_scan star_title (star_subs 5)
         {| depth := ArgStr "2"; downsize := ArgInt 4 |} 3 0%N 2 = Ok st'
     ∧ minlen <$> edges (dot st') = [1; 2; 1; 2; 1])
  ∧ (∃ st', py_int int_of_str_model (ArgInt 2) = Ok 2
     ∧ sample_scan star_title (star_subs 5)
         {| depth := ArgInt 2; downsize := ArgInt 4 |} 3 0%N 2 = Ok st'
     ∧ minlen <$> edges (dot st') = [1; 1; 1; 1; 1]).
Proof.
  split; eexists; (split; [reflexivity |]);
    (split; [vm_compute; reflexivity |]); reflexivity.
Qed.

(** * The size limiter *)

Lemma list_remove_not_OutOfFuel x l : list_remove x l ≠ OutOfFuel.
Proof.
  induction l as [|y l IH]; simpl; [done|].
  destruct (decide (x = y)); [done|].
  by destruct (list_remove x l).
Qed.

Lemma list_remove_Raise x l e : list_remove x l = Raise e → e = ValueError ∧ x ∉ l.
Proof.
  induction l as [|y l IH]; simpl.
  - intros [= <-]. split; [done | apply not_elem_of_nil].
  - destruct (decide (x = y)); [done|].
    destruct (list_remove x l) eqn:Hr; simpl; try done.
    intros [= <-]. edestruct IH as [? ?]; [reflexivity |]. split; [done | set_solver].
Qed.

Lemma list_remove_not_elem x l : x ∉ l → list_remove x l = Raise ValueError.
Proof.
  induction l as [|y l IH]; simpl; [done|]. intros Hx.
  destruct (decide (x = y)); [set_solver|].
  rewrite IH by set_solver. done.
Qed.

Lemma list_remove_Ok x l l' :
  list_remove x l = Ok l' →
  x ∈ l ∧ length l = S (length l') ∧ (∀ y, y ∈ l' → y ∈ l)
  ∧ (x ∈ l' → ∃ l1 l2, l = l1 ++ x :: l2 ∧ x ∈ l1 ++ l2 ∧ l' = l1 ++ l2).
Proof.
  revert l'. induction l as [|y l IH]; simpl; intros l'; [done|].
  destruct (decide (x = y)) as [<-|Hne].
  - intros [= <-]. repeat split; [set_solver | set_solver |].
    intros Hx. exists [], l. done.
  - intros H. inv_bind H. injection H as <-.
    destruct (IH _ Ha) as (Hin & Hlen & Hsub & Hdup).
    repeat split; [set_solver | simpl; lia | set_solver |].
    intros Hx. destruct Hdup as (l1 & l2 & -> & Hin' & ->); [set_solver|].
    exists (y :: l1), l2. repeat split; set_solver.
Qed.

Lemma list_remove_elem x l : x ∈ l → ∃ l', list_remove x l = Ok l'.
Proof.
  intros Hx. destruct (list_remove x l) as [l'| e |] eqn:Hr; [by exists l' | |].
  - apply list_remove_Raise in Hr as [_ ?]. done.
  - by apply list_remove_not_OutOfFuel in Hr.
Qed.

(** Removals of two different values commute, failures included. *)
Lemma list_remove_comm x y l :
  x ≠ y →
  list_remove x l ≫= list_remove y = list_remove y l ≫= list_remove x.
Proof.
  intros Hne. induction l as [|z l IH]; [done|]. simpl.
  destruct (decide (x = z)) as [Hxz|Hxz]; destruct (decide (y = z)) as [Hyz|Hyz].
  - congruence.
  - simpl. destruct (list_remove y l) eqn:Hy; simpl; try done.
    by rewrite decide_True.
  - simpl. destruct (list_remove x l) eqn:Hx; simpl; try done.
    by rewrite decide_True.
  - destruct (list_remove x l) as [lx|ex|] eqn:Hx;
      destruct (list_remove y l) as [ly|ey|] eqn:Hy; simpl in *;
      rewrite ?decide_False by done; rewrite <- ?IH, ?IH; simpl; try done.
    all: try (by destruct (list_remove y lx)).
    all: try (by destruct (list_remove x ly)).
Qed.

(** Replacing a forward list changes the size by the change of its length. *)
Lemma fw_size_insert (m : gmap string (list string)) p l0 l :
  m !! p = Some l0 →
  (fw_size (<[p := l]> m) + length l0 = fw_size m + length l)%nat.
Proof.
  intros Hp. unfold fw_size.
  rewrite <- insert_delete_eq.
  rewrite map_fold_insert_L; [| intros; lia | apply lookup_delete_eq].
  rewrite (map_fold_delete_L _ _ p l0 m); [lia | intros; lia | done].
Qed.

Lemma lookup_total_elem (m : gmap string (list string)) p x :
  x ∈ m !!! p → m !! p = Some (m !!! p).
Proof.
  rewrite lookup_total_alt. destruct (m !! p); simpl; [done|].
  intros H. by apply not_elem_of_nil in H.
Qed.

Lemma prune_step_Ok n p st st' :
  prune_step n p st = Ok st' →
  ∃ l, list_remove n (fw st !!! p) = Ok l
    ∧ st' = set_fw (<[p := l]> (fw st))
              (set_dot (del_node n (del_edge p n (dot st))) st)
    ∧ fw st' !!! p = l
    ∧ S (fw_size (fw st')) = fw_size (fw st).
Proof.
  unfold prune_step. simpl. intros H. inv_bind H. injection H as <-.
  exists a. split; [done|]. split; [done|]. simpl.
  split; [apply lookup_total_insert_eq |].
  apply list_remove_Ok in Ha as (Hin & Hlen & _).
  pose proof (fw_size_insert (fw st) p _ a (lookup_total_elem _ _ _ Hin)). lia.
Qed.

Lemma prune_step_not_OutOfFuel n p st : prune_step n p st ≠ OutOfFuel.
Proof.
  unfold prune_step. apply bind_not_OutOfFuel; [apply list_remove_not_OutOfFuel | done].
Qed.

(** [prune_chain], one turn unfolded. *)
Lemma prune_chain_S fuel n st :
  prune_chain (S fuel) n st =
    match rev st !!! n with
    | [parent] =>
        st' ← prune_step n parent st;
        match fw st' !!! parent with
        | _ :: _ => Ok st'
        | [] => prune_chain fuel parent st'
        end
    | _ => Ok st
    end.
Proof.
  simpl. destruct (rev st !!! n) as [|parent [|]]; try done.
  unfold prune_step. simpl.
  destruct (list_remove n (fw st !!! parent)) as [l| |]; simpl; try done.
  rewrite lookup_total_insert_eq. by destruct l.
Qed.

(** A walk ends before the fuel does when the fuel exceeds the size of the
    forward lists, and then its result does not depend on the fuel. *)
Lemma prune_chain_fuel fuel fuel' : ∀ n st,
  (fw_size (fw st) < fuel)%nat → (fw_size (fw st) < fuel')%nat →
  prune_chain fuel n st = prune_chain fuel' n st
  ∧ prune_chain fuel n st ≠ OutOfFuel.
Proof.
  revert fuel'. induction fuel as [|fuel IH]; intros fuel' n st Hf Hf'; [lia|].
  destruct fuel' as [|fuel']; [lia|].
  rewrite !prune_chain_S.
  destruct (rev st !!! n) as [|parent [|]]; try done.
  destruct (prune_step n parent st) as [st'| |] eqn:Hs; simpl; try done.
  - apply prune_step_Ok in Hs as (l & _ & _ & _ & Hsize).
    destruct (fw st' !!! parent); [|done].
    apply IH; lia.
  - by apply prune_step_not_OutOfFuel in Hs.
Qed.

Lemma prune_not_OutOfFuel n st : prune n st ≠ OutOfFuel.
Proof.
  unfold prune.
  apply (prune_chain_fuel (S (fw_size (fw st))) (S (fw_size (fw st)))); lia.
Qed.

(** The walk from [n], without fuel. *)
Lemma prune_unfold n st :
  prune n st =
    match rev st !!! n with
    | [parent] =>
        st' ← prune_step n parent st;
        match fw st' !!! parent with
        | _ :: _ => Ok st'
        | [] => prune parent st'
        end
    | _ => Ok st
    end.
Proof.
  unfold prune at 1. rewrite prune_chain_S.
  destruct (rev st !!! n) as [|parent [|]]; try done.
  destruct (prune_step n parent st) as [st'| |] eqn:Hs; simpl; try done.
  apply prune_step_Ok in Hs as (l & _ & _ & _ & Hsize).
  destruct (fw st' !!! parent); [|done].
  unfold prune. apply prune_chain_fuel; lia.
Qed.

(** A step leaves everything but the graph and the forward lists alone. *)
Lemma prune_step_frame n p st st' :
  prune_step n p st = Ok st' →
  rev st' = rev st ∧ counter st' = counter st ∧ leaves st' = leaves st
  ∧ dot st' = del_node n (del_edge p n (dot st)).
Proof.
  intros H. apply prune_step_Ok in H as (l & _ & -> & _). done.
Qed.

(** Induction along a pruning walk. *)
Lemma prune_ind (P : string → Bot → result Bot → Prop) :
  (∀ n st, (∀ p, rev st !!! n ≠ [p]) → P n st (Ok st)) →
  (∀ n p st e, rev st !!! n = [p] → prune_step n p st = Raise e →
     P n st (Raise e)) →
  (∀ n p st st', rev st !!! n = [p] → prune_step n p st = Ok st' →
     fw st' !!! p ≠ [] → P n st (Ok st')) →
  (∀ n p st st', rev st !!! n = [p] → prune_step n p st = Ok st' →
     fw st' !!! p = [] → P p st' (prune p st') → P n st (prune p st')) →
  ∀ n st, P n st (prune n st).
Proof.
  intros Hstop Hraise Hbreak Hup n st.
  remember (fw_size (fw st)) as k eqn:Hk. revert n st Hk.
  induction (lt_wf k) as [k _ IH]. intros n st ->.
  rewrite prune_unfold.
  destruct (rev st !!! n) as [|p [|]] eqn:Hrev;
    [apply Hstop; by rewrite Hrev | | apply Hstop; by rewrite Hrev].
  destruct (prune_step n p st) as [st'| e |] eqn:Hs; simpl.
  - destruct (fw st' !!! p) eqn:Hfw.
    + eapply Hup; eauto.
      apply prune_step_Ok in Hs as (l & _ & _ & _ & Hsize).
      eapply IH; [|reflexivity]. lia.
    + eapply Hbreak; eauto. by rewrite Hfw.
  - by eapply Hraise.
  - by apply prune_step_not_OutOfFuel in Hs.
Qed.

Lemma prune_frame n st st' :
  prune n st = Ok st' →
  rev st' = rev st ∧ counter st' = counter st ∧ leaves st' = leaves st.
Proof.
  revert st'. pattern n, st, (prune n st). apply prune_ind; clear n st.
  - intros n st _ st' [= <-]. done.
  - done.
  - intros n p st st1 _ Hs _ st' [= <-].
    by apply prune_step_frame in Hs as (? & ? & ? & _).
  - intros n p st st1 _ Hs _ IH st' H.
    apply prune_step_frame in Hs as (Hr & Hc & Hl & _).
    destruct (IH _ H) as (-> & -> & ->). done.
Qed.

Lemma prune_leaves_frame order : ∀ st st',
  prune_leaves order st = Ok st' →
  rev st' = rev st ∧ counter st' = counter st ∧ leaves st' = leaves st.
Proof.
  induction order as [|n order IH]; intros st st' H; simpl in H.
  - by injection H as <-.
  - inv_bind H. apply prune_frame in Ha as (Hr & Hc & Hl).
    destruct (IH _ _ H) as (-> & -> & ->). done.
Qed.

(** Only a node whose recorded parents are exactly one is ever deleted. *)
Lemma del_keeps_node n p nd d :
  node_name nd ≠ n → INode nd ∈ d → INode nd ∈ del_node n (del_edge p n d).
Proof.
  intros Hne Hin. unfold del_node, del_edge.
  apply list_elem_of_filter. split; [simpl; congruence |].
  apply list_elem_of_filter. split; [simpl; tauto | done].
Qed.



Lemma singleton_length (l : list string) :
  length l ≠ 1%nat ↔ ∀ p, l ≠ [p].
Proof.
  split.
  - intros H p ->. by apply H.
  - intros H Hl. destruct l as [|p [|]]; try done. by apply (H p).
Qed.

Lemma reduce_Ok iter st st' :
  reduce iter st = Ok st' →
  if bool_decide (reduce_threshold < counter st)
  then prune_leaves (iter (leaves st)) st = Ok st'
  else st' = st.
Proof.
  unfold reduce. destruct (bool_decide _); [done | by intros [= <-]].
Qed.

Section KeepsNodes.

Context {Cat : Type}.
Variable title : Cat → string.
Variable subcategories : Cat → list Cat.
Variable float_pow : float → Z → exn + float.
Variable float_of_str : string → exn + float.
Variable args : Args.

Local Abbreviation scan_level := (scan_level title subcategories float_pow float_of_str args).


End KeepsNodes.


(** * The chain root → A → B → C *)

Ltac filter_items :=
  unfold del_node, del_edge;
  repeat first
    [ rewrite filter_cons_True by (simpl; intuition congruence)
    | rewrite filter_cons_False by (simpl; intuition congruence)
    | rewrite filter_nil ].

(** C6.  On the chain root → A → B → C, with C the only leaf and the
    counter above the threshold, the limiter deletes C, B and A with their
    edges and leaves the node of the root alone. *)
Theorem chain_pruned_to_root nr na nb nc ea eb ec cnt iter :
  NoDup [node_name nr; node_name na; node_name nb; node_name nc] →
  source ea = node_name nr → destination ea = node_name na →
  source eb = node_name na → destination eb = node_name nb →
  source ec = node_name nb → destination ec = node_name nc →
  reduce_threshold < cnt →
  iter {[ node_name nc ]} ≡ₚ elements ({[ node_name nc ]} : gset string) →
  ∃ st', reduce iter (chain_state nr na nb nc ea eb ec cnt) = Ok st'
       ∧ dot st' = [INode nr].
Proof.
  intros Hnd Hsa Hda Hsb Hdb Hsc Hdc Hcnt Hiter.
  apply NoDup_cons in Hnd as (Hr & Hnd). apply NoDup_cons in Hnd as (Ha & Hnd).
  apply NoDup_cons in Hnd as (Hb & _).
  apply not_elem_of_cons in Hr as (Hra & Hr).
  apply not_elem_of_cons in Hr as (Hrb & Hr).
  apply not_elem_of_cons in Hr as (Hrc & _).
  apply not_elem_of_cons in Ha as (Hab & Ha).
  apply not_elem_of_cons in Ha as (Hac & _).
  apply not_elem_of_cons in Hb as (Hbc & _).
  rewrite elements_singleton in Hiter. apply Permutation_singleton_r in Hiter.
  unfold reduce. simpl counter. rewrite bool_decide_eq_true_2 by done.
  simpl leaves. rewrite Hiter. simpl prune_leaves.
  (* the walk from C *)
  rewrite prune_unfold. simpl rev.
  rewrite lookup_total_insert_ne, lookup_total_insert_ne, lookup_total_insert_eq
    by congruence.
  unfold prune_step at 1. simpl dot. simpl fw.
  rewrite lookup_total_insert_ne, lookup_total_insert_ne, lookup_total_insert_eq
    by congruence.
  simpl list_remove. rewrite decide_True by done. rewrite !bind_Ok_l.
  simpl fw. rewrite lookup_total_insert_eq.
  filter_items.
  (* the walk from B *)
  rewrite prune_unfold. simpl rev.
  rewrite lookup_total_insert_ne, lookup_total_insert_eq by congruence.
  unfold prune_step at 1. simpl dot. simpl fw.
  rewrite lookup_total_insert_ne, lookup_total_insert_ne, lookup_total_insert_eq
    by congruence.
  simpl list_remove. rewrite decide_True by done. rewrite !bind_Ok_l.
  simpl fw. rewrite lookup_total_insert_eq.
  filter_items.
  (* the walk from A *)
  rewrite prune_unfold. simpl rev.
  rewrite lookup_total_insert_eq.
  unfold prune_step at 1. simpl dot. simpl fw.
  rewrite lookup_total_insert_ne, lookup_total_insert_ne, lookup_total_insert_eq
    by congruence.
  simpl list_remove. rewrite decide_True by done. rewrite !bind_Ok_l.
  simpl fw. rewrite lookup_total_insert_eq.
  filter_items.
  (* the root has no recorded parent *)
  rewrite prune_unfold. simpl rev.
  rewrite !lookup_total_insert_ne by congruence. rewrite lookup_total_empty.
  eexists. split; [reflexivity | reflexivity].
Qed.

(** * A second pass of the limiter *)

Lemma count_nil x : count x [] = 0%nat.
Proof. done. Qed.

Lemma count_cons x y l :
  count x (y :: l) = ((if decide (y = x) then 1 else 0) + count x l)%nat.
Proof. unfold count. rewrite filter_cons. by destruct (decide (y = x)). Qed.

Lemma count_app x l1 l2 : count x (l1 ++ l2) = (count x l1 + count x l2)%nat.
Proof. unfold count. by rewrite filter_app, length_app. Qed.

Lemma count_zero x l : count x l = 0%nat ↔ x ∉ l.
Proof.
  induction l as [|y l IH]; [by rewrite count_nil; split; [set_solver|] |].
  rewrite count_cons, not_elem_of_cons.
  destruct (decide (y = x)); [split; [lia | naive_solver] |].
  rewrite <- IH. split; [naive_solver | intros [_ ?]; lia].
Qed.

Lemma list_remove_count x l l' y :
  list_remove x l = Ok l' →
  count y l = ((if decide (x = y) then 1 else 0) + count y l')%nat.
Proof.
  revert l'. induction l as [|z l IH]; simpl; intros l' H; [done|].
  destruct (decide (x = z)) as [<-|Hne].
  - injection H as <-. apply count_cons.
  - inv_bind H. injection H as <-. rewrite !count_cons, (IH _ Ha). lia.
Qed.




Lemma del_sub n p d it : it ∈ del_node n (del_edge p n d) → it ∈ d.
Proof.
  unfold del_node, del_edge. intros Hit.
  apply list_elem_of_filter in Hit as (_ & Hit).
  by apply list_elem_of_filter in Hit as (_ & Hit).
Qed.

(** A step takes one occurrence of [n] out of the forward list of [p] and
    nothing else out of any forward list. *)
Lemma prune_step_count n p st st' x q :
  prune_step n p st = Ok st' →
  count x (fw st !!! q) =
    ((if decide (n = x ∧ p = q) then 1 else 0) + count x (fw st' !!! q))%nat.
Proof.
  intros H. apply prune_step_Ok in H as (l & Hl & -> & _). simpl.
  destruct (decide (p = q)) as [<-|Hpq].
  - rewrite lookup_total_insert_eq, (list_remove_count _ _ _ x Hl).
    destruct (decide (n = x)); [by rewrite decide_True | by rewrite decide_False by tauto].
  - rewrite lookup_total_insert_ne by done. by rewrite decide_False by tauto.
Qed.

(** A walk only takes out of the forward lists and of the graph. *)
Lemma prune_mono n st st' :
  prune n st = Ok st' →
  (∀ x q, (count x (fw st' !!! q) ≤ count x (fw st !!! q))%nat)
  ∧ (∀ it, it ∈ dot st' → it ∈ dot st).
Proof.
  revert st'. pattern n, st, (prune n st). apply prune_ind; clear n st.
  - intros n st _ st' [= <-]. done.
  - done.
  - intros n p st st1 _ Hs _ st' [= <-]. split.
    + intros x q. rewrite (prune_step_count _ _ _ _ x q Hs). lia.
    + intros it. apply prune_step_frame in Hs as (_ & _ & _ & ->). apply del_sub.
  - intros n p st st1 _ Hs _ IH st' H. destruct (IH _ H) as (Hc & Hd). split.
    + intros x q. rewrite (prune_step_count _ _ _ _ x q Hs).
      specialize (Hc x q). lia.
    + intros it Hit. apply Hd in Hit.
      apply prune_step_frame in Hs as (_ & _ & _ & Hdot). rewrite Hdot in Hit.
      by eapply del_sub.
Qed.






Section SecondPass.

Context {Cat : Type}.
Variable title : Cat → string.
Variable subcategories : Cat → list Cat.
Variable float_pow : float → Z → exn + float.
Variable float_of_str : string → exn + float.
Variable args : Args.

Local Abbreviation scan_level := (scan_level title subcategories float_pow float_of_str args).



End SecondPass.


(** * Independence of the order of the leaves *)

Lemma del_comm a p b q d :
  del_node a (del_edge p a (del_node b (del_edge q b d)))
  = del_node b (del_edge q b (del_node a (del_edge p a d))).
Proof.
  unfold del_node, del_edge. rewrite !list_filter_filter.
  apply list_filter_iff. intros it. tauto.
Qed.

Lemma prune_skip n st : (∀ p, rev st !!! n ≠ [p]) → prune n st = Ok st.
Proof.
  intros H. rewrite prune_unfold.
  destruct (rev st !!! n) as [|p [|]] eqn:Hrev; try done. by destruct (H p).
Qed.

Lemma prune_step_Raise n p st e :
  prune_step n p st = Raise e → e = ValueError ∧ n ∉ fw st !!! p.
Proof.
  unfold prune_step. simpl.
  destruct (list_remove n (fw st !!! p)) eqn:Hr; simpl; try done.
  intros [= <-]. by apply list_remove_Raise in Hr.
Qed.

Lemma prune_step_not_elem n p st :
  n ∉ fw st !!! p → prune_step n p st = Raise ValueError.
Proof.
  intros H. unfold prune_step. simpl. by rewrite list_remove_not_elem.
Qed.

Lemma prune_Raise n st e : prune n st = Raise e → e = ValueError.
Proof.
  pattern n, st, (prune n st). apply prune_ind; clear n st; try done.
  intros n p st e' _ Hs [= <-]. by apply prune_step_Raise in Hs as (? & _).
Qed.

Lemma prune_single n p st :
  rev st !!! n = [p] → prune n st = prune_step n p st ≫= climb p.
Proof. intros H. rewrite prune_unfold, H. done. Qed.

(** A walk from a node that is not in its parent's forward list raises, and
    still does after any other walk. *)
Lemma prune_not_elem n p st :
  rev st !!! n = [p] → n ∉ fw st !!! p → prune n st = Raise ValueError.
Proof.
  intros Hrev Hn. by rewrite (prune_single _ _ _ Hrev), prune_step_not_elem.
Qed.

Lemma prune_then_not_elem m n p st :
  rev st !!! n = [p] → n ∉ fw st !!! p →
  prune m st ≫= prune n = Raise ValueError.
Proof.
  intros Hrev Hn. destruct (prune m st) as [st'| e |] eqn:Hm; simpl.
  - pose proof (prune_frame _ _ _ Hm) as (Hr & _).
    apply prune_mono in Hm as (Hc & _).
    apply (prune_not_elem n p); [by rewrite Hr |].
    apply count_zero. apply count_zero in Hn. specialize (Hc n p). lia.
  - by apply prune_Raise in Hm as ->.
  - by apply prune_not_OutOfFuel in Hm.
Qed.

Lemma bind_skip (r : result Bot) (f : Bot → result Bot) :
  (∀ st, r = Ok st → f st = Ok st) → r ≫= f = r.
Proof. destruct r; simpl; auto. Qed.

(** The first steps of the walks from two different nodes commute. *)
Lemma prune_step_comm a p b q st st_a st_b :
  a ≠ b →
  prune_step a p st = Ok st_a → prune_step b q st = Ok st_b →
  ∃ st_ab,
    prune_step b q st_a = Ok st_ab ∧ prune_step a p st_b = Ok st_ab
    ∧ (p ≠ q → fw st_ab !!! p = fw st_a !!! p ∧ fw st_ab !!! q = fw st_b !!! q)
    ∧ (p = q → fw st_a !!! p ≠ [] ∧ fw st_b !!! q ≠ []).
Proof.
  intros Hab Ha Hb.
  pose proof (prune_step_count _ _ _ _ b q Ha) as Hcb.
  pose proof (prune_step_count _ _ _ _ a p Hb) as Hca.
  rewrite decide_False in Hcb by tauto.
  rewrite decide_False in Hca by (intros [? ?]; congruence).
  apply prune_step_Ok in Ha as (la & Hla & -> & _).
  apply prune_step_Ok in Hb as (lb & Hlb & -> & _).
  simpl in Hca, Hcb.
  destruct (decide (p = q)) as [<-|Hpq].
  - rewrite lookup_total_insert_eq in Hca, Hcb.
    pose proof (list_remove_comm a b (fw st !!! p) Hab) as Hcomm.
    rewrite Hla, Hlb in Hcomm. simpl in Hcomm.
    assert (Hbin : b ∈ la).
    { apply list_remove_Ok in Hlb as (Hin & _).
      destruct (decide (b ∈ la)) as [|Hn]; [done|].
      apply count_zero in Hn. apply dec_stable. intros _.
      assert (count b (fw st !!! p) ≠ 0%nat) by (rewrite count_zero; tauto). lia. }
    assert (Hain : a ∈ lb).
    { apply list_remove_Ok in Hla as (Hin & _).
      destruct (decide (a ∈ lb)) as [|Hn]; [done|].
      apply count_zero in Hn. apply dec_stable. intros _.
      assert (count a (fw st !!! p) ≠ 0%nat) by (rewrite count_zero; tauto). lia. }
    destruct (list_remove_elem _ _ Hbin) as (lab & Hlab).
    rewrite Hlab in Hcomm.
    exists (set_fw (<[p := lab]> (fw st))
              (set_dot (del_node b (del_edge p b (del_node a (del_edge p a (dot st)))))
                 st)).
    split; [|split; [|split]].
    + unfold prune_step. simpl. rewrite lookup_total_insert_eq, Hlab. simpl.
      by rewrite insert_insert_eq.
    + unfold prune_step. simpl. rewrite lookup_total_insert_eq, <- Hcomm. simpl.
      by rewrite insert_insert_eq, del_comm.
    + done.
    + intros _. simpl. rewrite !lookup_total_insert_eq.
      split; intros ->; [by apply not_elem_of_nil in Hbin | by apply not_elem_of_nil in Hain].
  - exists (set_fw (<[q := lb]> (<[p := la]> (fw st)))
              (set_dot (del_node b (del_edge q b (del_node a (del_edge p a (dot st)))))
                 st)).
    split; [|split; [|split]].
    + unfold prune_step. simpl. rewrite lookup_total_insert_ne, Hlb by done. done.
    + unfold prune_step. simpl. rewrite lookup_total_insert_ne, Hla by done. simpl.
      by rewrite insert_insert_ne, del_comm by done.
    + intros _. simpl.
      rewrite lookup_total_insert_ne, !lookup_total_insert_eq by done. done.
    + done.
Qed.

Lemma climb_nil p st : fw st !!! p = [] → climb p st = prune p st.
Proof. unfold climb. by intros ->. Qed.

Lemma climb_cons p st : fw st !!! p ≠ [] → climb p st = Ok st.
Proof. unfold climb. by destruct (fw st !!! p). Qed.

(** The walks from two leaves commute, failures included. *)
Lemma prune_comm st : ∀ a b, prune a st ≫= prune b = prune b st ≫= prune a.
Proof.
  remember (fw_size (fw st)) as k eqn:Hk. revert st Hk.
  induction (lt_wf k) as [k _ IH]. intros st -> a b.
  destruct (decide (a = b)) as [->|Hab]; [done|].
  assert (Hskip : ∀ x y, (∀ p, rev st !!! x ≠ [p]) →
            prune x st ≫= prune y = prune y st ≫= prune x).
  { intros x y Hx. rewrite (prune_skip x st Hx). simpl. symmetry.
    apply bind_skip. intros st' Hy. apply prune_skip.
    apply prune_frame in Hy as (-> & _). done. }
  destruct (rev st !!! a) as [|p [|]] eqn:Hra;
    [apply Hskip; by rewrite Hra | | apply Hskip; by rewrite Hra].
  destruct (rev st !!! b) as [|q [|]] eqn:Hrb;
    [symmetry; apply Hskip; by rewrite Hrb | | symmetry; apply Hskip; by rewrite Hrb].
  destruct (prune_step a p st) as [st_a| e |] eqn:Ha;
    [| | by apply prune_step_not_OutOfFuel in Ha].
  2:{ apply prune_step_Raise in Ha as (_ & Ha).
      rewrite (prune_not_elem a p st Hra Ha). simpl.
      by rewrite (prune_then_not_elem b a p st Hra Ha). }
  destruct (prune_step b q st) as [st_b| e |] eqn:Hb;
    [| | by apply prune_step_not_OutOfFuel in Hb].
  2:{ apply prune_step_Raise in Hb as (_ & Hb).
      rewrite (prune_not_elem b q st Hrb Hb). simpl.
      by rewrite (prune_then_not_elem a b q st Hrb Hb). }
  destruct (prune_step_comm a p b q st st_a st_b Hab Ha Hb)
    as (st_ab & Hba & Hab' & Hne & Heq).
  pose proof (prune_step_frame _ _ _ _ Ha) as (Hra' & _).
  pose proof (prune_step_frame _ _ _ _ Hb) as (Hrb' & _).
  pose proof (prune_step_Ok _ _ _ _ Ha) as (_ & _ & _ & _ & Hsa).
  pose proof (prune_step_Ok _ _ _ _ Hb) as (_ & _ & _ & _ & Hsb).
  pose proof (prune_step_Ok _ _ _ _ Hba) as (_ & _ & _ & _ & Hsab).
  assert (Hpa : prune a st = climb p st_a)
    by (by rewrite (prune_single a p st Hra), Ha).
  assert (Hpb : prune b st = climb q st_b)
    by (by rewrite (prune_single b q st Hrb), Hb).
  assert (Hpba : prune b st_a = climb q st_ab).
  { rewrite (prune_single b q st_a), Hba; [done|]. by rewrite Hra'. }
  assert (Hpab : prune a st_b = climb p st_ab).
  { rewrite (prune_single a p st_b), Hab'; [done|]. by rewrite Hrb'. }
  assert (IHa : ∀ x y, prune x st_a ≫= prune y = prune y st_a ≫= prune x)
    by (apply (IH (fw_size (fw st_a))); [lia | done]).
  assert (IHb : ∀ x y, prune x st_b ≫= prune y = prune y st_b ≫= prune x)
    by (apply (IH (fw_size (fw st_b))); [lia | done]).
  assert (IHab : ∀ x y, prune x st_ab ≫= prune y = prune y st_ab ≫= prune x)
    by (apply (IH (fw_size (fw st_ab))); [lia | done]).
  rewrite Hpa, Hpb.
  destruct (decide (p = q)) as [<-|Hpq].
  - destruct (Heq eq_refl) as (Ea & Eb).
    rewrite (climb_cons p st_a Ea), (climb_cons p st_b Eb). simpl.
    by rewrite Hpba, Hpab.
  - destruct (Hne Hpq) as (Ep & Eq).
    destruct (fw st_a !!! p) as [|xa la] eqn:Ea;
      destruct (fw st_b !!! q) as [|xb lb] eqn:Eb.
    + rewrite (climb_nil p st_a Ea), (climb_nil q st_b Eb).
      rewrite IHa, IHb, Hpba, Hpab.
      rewrite (climb_nil q st_ab Eq), (climb_nil p st_ab Ep).
      apply IHab.
    + rewrite (climb_nil p st_a Ea), (climb_cons q st_b) by (by rewrite Eb).
      simpl. rewrite IHa, Hpba, Hpab.
      rewrite (climb_cons q st_ab) by (by rewrite Eq).
      by rewrite (climb_nil p st_ab Ep).
    + rewrite (climb_cons p st_a), (climb_nil q st_b Eb) by (by rewrite Ea).
      simpl. rewrite IHb, Hpba, Hpab.
      rewrite (climb_cons p st_ab) by (by rewrite Ep).
      by rewrite (climb_nil q st_ab Eq).
    + rewrite (climb_cons p st_a), (climb_cons q st_b)
        by (by rewrite ?Ea, ?Eb).
      simpl. rewrite Hpba, Hpab.
      by rewrite (climb_cons p st_ab), (climb_cons q st_ab)
        by (by rewrite ?Ep, ?Eq).
Qed.

(** The pass over the leaves gives the same result in every order. *)
Lemma prune_leaves_perm order1 order2 :
  order1 ≡ₚ order2 → ∀ st, prune_leaves order1 st = prune_leaves order2 st.
Proof.
  induction 1 as [|n l1 l2 _ IH|a b l|l1 l2 l3 _ IH1 _ IH2]; intros st.
  - done.
  - simpl. destruct (prune n st); simpl; [apply IH | done..].
  - transitivity ((prune b st ≫= prune a) ≫= prune_leaves l);
      [simpl; by destruct (prune b st) |].
    rewrite prune_comm. simpl. by destruct (prune a st).
  - by rewrite IH1.
Qed.

Lemma prune_leaves_not_OutOfFuel order : ∀ st, prune_leaves order st ≠ OutOfFuel.
Proof.
  induction order as [|n order IH]; intros st; simpl; [done|].
  apply bind_not_OutOfFuel; [apply prune_not_OutOfFuel | auto].
Qed.

Lemma reduce_not_OutOfFuel iter st : reduce iter st ≠ OutOfFuel.
Proof.
  unfold reduce. destruct (bool_decide _); [apply prune_leaves_not_OutOfFuel | done].
Qed.

Section Determinism.

Context {Cat : Type}.
Variable title : Cat → string.
Variable subcategories : Cat → list Cat.
Variable float_pow : float → Z → exn + float.
Variable int_of_str : string → exn + Z.
Variable float_of_str : string → exn + float.
Variable to_string : list item → string.
Variable args : Args.

Local Abbreviation run :=
  (run title subcategories float_pow int_of_str float_of_str to_string args).

(** C9.  Two runs on the same category source and the same command line
    write the same text, or fail alike, whatever the order in which each of
    them iterates over the set of leaves; and a run always ends. *)
Theorem run_deterministic iter1 iter2 root :
  (∀ s, iter1 s ≡ₚ elements s) →
  (∀ s, iter2 s ≡ₚ elements s) →
  run iter1 root = run iter2 root ∧ run iter1 root ≠ OutOfFuel.
Proof.
  intros H1 H2. unfold run. split.
  - destruct (py_int int_of_str (depth args)) as [d| |];
      [rewrite !bind_Ok_l | reflexivity..].
    destruct (scan_level title subcategories float_pow float_of_str args
                (scan_fuel d) root d None init) as [st| |];
      [rewrite !bind_Ok_l | reflexivity..].
    unfold reduce. destruct (bool_decide _); [|done].
    rewrite (prune_leaves_perm (iter1 (leaves st)) (iter2 (leaves st))); [done|].
    by rewrite H1, H2.
  - apply bind_not_OutOfFuel.
    { destruct (depth args); simpl; [done | apply call_not_OutOfFuel]. }
    intros d _. apply bind_not_OutOfFuel.
    { apply scan_level_enough_fuel. unfold scan_fuel. simpl.
      destruct (decide (0 ≤ d)).
      - left. rewrite bool_decide_eq_true_2 by done. lia.
      - right. rewrite bool_decide_eq_false_2 by done. unfold node_limit. lia. }
    intros st _. apply bind_not_OutOfFuel; [apply reduce_not_OutOfFuel | done].
Qed.

End Determinism.

(** * The limiter on sample graphs *)


Lemma chain_pruned_to_root_witness :
  ∃ st',
    reduce iter_up
      (chain_state (sample_node "root") (sample_node "A") (sample_node "B")
         (sample_node "C") (sample_edge "root" "A") (sample_edge "A" "B")
         (sample_edge "B" "C") 1001) = Ok st'
    ∧ dot st' = [INode (sample_node "root")].
Proof.
  apply chain_pruned_to_root; try reflexivity.
  apply (bool_decide_unpack _). vm_compute. exact I.
Defined.

(** The chain state is the state the traversal of the chain source leaves,
    at depth 3, once the counter is set. *)
Lemma chain_state_of_traversal :
  match sample_scan chain_title chain_subs
          {| depth := ArgInt 3; downsize := ArgInt 4 |} 4 0%N 3 with
  | Ok st =>
      match dot st with
      | [INode nr; IEdge ea; INode na; IEdge eb; INode nb; IEdge ec; INode nc] =>
          set_counter 1001 st = chain_state nr na nb nc ea eb ec 1001
      | _ => False
      end
  | _ => False
  end.
Proof. vm_compute. reflexivity. Qed.


Lemma run_deterministic_witness :
  run star_title (star_subs 3) pow_model int_of_str_model float_of_str_model
    to_string_model default_args iter_up 0%N
  = run star_title (star_subs 3) pow_model int_of_str_model float_of_str_model
      to_string_model default_args iter_down 0%N.
Proof.
  apply run_deterministic; intros s; [reflexivity | apply reverse_Permutation].
Defined.

(** * Texts *)

Lemma chars_app s1 s2 : chars (s1 +:+ s2) = chars s1 ++ chars s2.
Proof. induction s1 as [|a s1 IH]; simpl; [done | by rewrite <- IH]. Qed.

Lemma length_app_string s1 s2 :
  String.length (s1 +:+ s2) = (String.length s1 + String.length s2)%nat.
Proof. induction s1 as [|a s1 IH]; simpl; [done | by rewrite IH]. Qed.

Lemma length_substring_0 n s :
  String.length (String.substring 0 n s) = Nat.min n (String.length s).
Proof.
  revert s. induction n as [|n IH]; intros [|a s]; simpl; try done.
  by rewrite IH.
Qed.

Lemma chars_substring_0 n s : chars (String.substring 0 n s) = take n (chars s).
Proof.
  revert s. induction n as [|n IH]; intros [|a s]; simpl; try done.
  unfold chars in IH. by rewrite IH.
Qed.

Lemma replace_space_chars new s :
  ∀ a, a ∈ chars (replace_space new s) → a ∈ chars new ∨ (a ∈ chars s ∧ a ≠ Ascii.Space).
Proof.
  induction s as [|b s IH]; simpl; intros a.
  - intros H. by apply elem_of_nil in H.
  - destruct (Ascii.eqb_spec b Ascii.Space) as [->|Hb].
    + rewrite chars_app, elem_of_app. intros [H|H]; [by left|].
      destruct (IH a H) as [?|[? ?]]; [by left | right].
      split; [by apply list_elem_of_further | done].
    + change (chars (String b (replace_space new s)))
        with (b :: chars (replace_space new s)).
      change (chars (String b s)) with (b :: chars s).
      rewrite !elem_of_cons. intros [->|H]; [right; auto|].
      destruct (IH a H) as [?|[? ?]]; [by left | right; auto].
Qed.

Lemma replace_space_spaceless new s :
  spaceless new → spaceless (replace_space new s).
Proof.
  intros Hnew H. apply replace_space_chars in H as [H|[_ H]]; [by apply Hnew | done].
Qed.

Lemma replace_space_id new s : spaceless s → replace_space new s = s.
Proof.
  unfold spaceless. induction s as [|b s IH]; simpl; [done|].
  change (chars (String b s)) with (b :: chars s).
  rewrite not_elem_of_cons. intros [Hb Hs].
  destruct (Ascii.eqb_spec b Ascii.Space) as [->|_]; [done|].
  by rewrite IH.
Qed.

Lemma replace_space_length_char a s :
  String.length (replace_space (String a "") s) = String.length s.
Proof.
  induction s as [|b s IH]; simpl; [done|].
  destruct (Ascii.eqb b Ascii.Space); simpl; f_equal; exact IH.
Qed.

(** X1.  The text of subcategories in a tool tip is the joined titles when
    these have at most 1000 characters; otherwise it is their first 1000
    characters followed by " ...", 1004 characters in all.  It never has
    more than 1004 characters. *)
Theorem subs_text_shortened {Cat} (title : Cat → string) (subcats : list Cat) :
  let subs := joined_subs title subcats in
  (String.length (subs_text title subcats) ≤ 1004)%nat
  ∧ ((String.length subs ≤ 1000)%nat → subs_text title subcats = subs)
  ∧ ((1000 < String.length subs)%nat →
       String.length (subs_text title subcats) = 1004%nat
       ∧ chars (subs_text title subcats) = take 1000 (chars subs) ++ chars " ...").
Proof.
  intros subs. unfold subs_text, shorten. fold subs.
  case_bool_decide as Hlen.
  - rewrite length_app_string, length_substring_0, chars_app, chars_substring_0.
    simpl String.length. repeat split; intros; lia.
  - repeat split; intros; lia || done.
Qed.

(** X2.  In the tool tip a title keeps its characters, except that every
    space has become "&nbsp;": the text of one subcategory has no space, and
    a title without a space is unchanged. *)
Theorem tooltip_titles_spaceless s :
  spaceless (replace_space "&nbsp;" s)
  ∧ (spaceless s → replace_space "&nbsp;" s = s)
  ∧ (∀ a, a ∈ chars (replace_space "&nbsp;" s) →
       a ∈ chars "&nbsp;" ∨ a ∈ chars s).
Proof.
  split; [|split].
  - apply replace_space_spaceless. unfold spaceless. vm_compute.
    intros H. repeat (apply elem_of_cons in H as [H|H]; [discriminate|]).
    by apply elem_of_nil in H.
  - apply replace_space_id.
  - intros a H. apply replace_space_chars in H. tauto.
Qed.

(** X3.  When no file name is given ([--to] absent, without a value or
    empty, or an empty answer to the prompt), the base name is the category
    title with every space turned into an underscore: as long as the title,
    without a space, and the title itself when it has none.  A name that is
    given is used as it is. *)
Theorem base_name_default to rest asked_title asked_to :
  let ttl := cat_title rest asked_title in
  let base := base_name to rest asked_title asked_to in
  (to = None ∨ to = Some "" ∨ (to = Some "?" ∧ asked_to = "") →
     base = replace_space "_" ttl
     ∧ String.length base = String.length ttl
     ∧ spaceless base
     ∧ (spaceless ttl → base = ttl))
  ∧ (∀ name, to = Some name → name ≠ "" → name ≠ "?" → base = name)
  ∧ (to = Some "?" → asked_to ≠ "" → base = asked_to).
Proof.
  intros ttl base. split; [|split].
  - intros H.
    assert (base = replace_space "_" ttl) as ->.
    { unfold base, base_name. fold ttl.
      destruct H as [->|[->|[-> ->]]]; by repeat case_decide. }
    split; [done|]. split; [apply replace_space_length_char|].
    split; [|apply replace_space_id].
    apply replace_space_spaceless. unfold spaceless. vm_compute.
    intros H'. repeat (apply elem_of_cons in H' as [H'|H']; [discriminate|]).
    by apply elem_of_nil in H'.
  - intros name -> Hne Hq. unfold base, base_name.
    case_decide; [congruence|]. by destruct name.
  - intros -> Hne. unfold base, base_name.
    case_decide; [|done]. by destruct asked_to.
Qed.

(** * The shape of a traversed graph *)

Lemma edge_count_app p n d1 d2 :
  edge_count p n (d1 ++ d2) = (edge_count p n d1 + edge_count p n d2)%nat.
Proof. unfold edge_count. by rewrite filter_app, length_app. Qed.


Lemma edge_count_edge p n e :
  edge_count p n [IEdge e]
  = if decide (source e = p ∧ destination e = n) then 1%nat else 0%nat.
Proof.
  unfold edge_count. rewrite filter_cons, filter_nil. simpl.
  by repeat case_decide.
Qed.

Lemma edge_count_node p n nd : edge_count p n [INode nd] = 0%nat.
Proof. unfold edge_count. by rewrite filter_cons, filter_nil. Qed.



Lemma count_dict_append x k y m q :
  count x (dict_append k y m !!! q)
  = (count x (m !!! q) + if decide (k = q ∧ y = x) then 1 else 0)%nat.
Proof.
  unfold dict_append.
  destruct (decide (k = q)) as [->|Hk].
  - rewrite lookup_total_insert_eq, count_app, count_cons, count_nil.
    repeat case_decide; intuition (congruence || lia).
  - rewrite lookup_total_insert_ne by done.
    rewrite decide_False by tauto. lia.
Qed.


Section Shape.

Context {Cat : Type}.
Variable title : Cat → string.
Variable subcategories : Cat → list Cat.
Variable float_pow : float → Z → exn + float.
Variable float_of_str : string → exn + float.
Variable args : Args.

Local Abbreviation scan_level := (scan_level title subcategories float_pow float_of_str args).
Local Abbreviation scans := (scans title subcategories float_pow float_of_str args).

Lemma scans_mirrors cat level hue st st' :
  scans cat level hue st st' → mirrors_from st st'.
Proof.
  revert cat level hue st st'.
  apply (scans_mut _ title subcategories float_pow float_of_str args
           (λ _ _ _ st st', mirrors_from st st')
           (λ _ _ _ _ _ _ _ st st', mirrors_from st st')).
  - intros cat level hue st factor size nd _ _ _ _ p n. simpl.
    unfold add_node. rewrite edge_count_app, edge_count_node. lia.
  - intros cat level hue st factor size nd st' _ _ _ _ _ _ IH p n.
    specialize (IH p n). simpl in IH. unfold add_node in IH.
    rewrite edge_count_app, edge_count_node in IH. lia.
  - intros ttl size level columns hue n st p n'. lia.
  - intros ttl size level columns hue n subcat rest st e st1 st' _ _ IH1 _ IH2 p n'.
    specialize (IH1 p n'). specialize (IH2 p n').
    unfold recorded in IH2. simpl in IH1, IH2. unfold add_edge in IH1.
    rewrite edge_count_app, edge_count_edge in IH1.
    rewrite !count_dict_append in IH2.
    repeat case_decide; intuition (congruence || lia).
Qed.

(** X4.  After a traversal from the initial state the index is the graph:
    [n] is in the forward list of [p], and [p] in the reverse list of [n],
    as many times as the graph has edges from [p] to [n]. *)
Theorem index_mirrors_edges fuel root level hue st :
  scan_level fuel root level hue init = Ok st →
  ∀ p n,
    count n (fw st !!! p) = edge_count p n (dot st)
    ∧ count p (rev st !!! n) = edge_count p n (dot st).
Proof.
  intros H p n. apply scan_level_scans, scans_mirrors in H.
  specialize (H p n). simpl in H. rewrite !lookup_total_empty in H.
  change (edge_count p n []) with 0%nat in H.
  change (count n (inhabitant : list string)) with 0%nat in H.
  change (count p (inhabitant : list string)) with 0%nat in H. lia.
Qed.





Lemma node_names_app d1 d2 : node_names (d1 ++ d2) = node_names d1 ++ node_names d2.
Proof. unfold node_names. apply omap_app. Qed.

Lemma scans_leaves cat level hue st st' :
  scans cat level hue st st' →
  (∀ n, n ∈ node_names (dot st) → n ∈ node_names (dot st'))
  ∧ (∀ n, n ∈ leaves st' → n ∈ leaves st ∨ n ∈ node_names (dot st')).
Proof.
  revert cat level hue st st'.
  apply (scans_mut _ title subcategories float_pow float_of_str args
           (λ _ _ _ st st',
              (∀ n, n ∈ node_names (dot st) → n ∈ node_names (dot st'))
              ∧ (∀ n, n ∈ leaves st' → n ∈ leaves st ∨ n ∈ node_names (dot st')))
           (λ _ _ _ _ _ _ _ st st',
              (∀ n, n ∈ node_names (dot st) → n ∈ node_names (dot st'))
              ∧ (∀ n, n ∈ leaves st' → n ∈ leaves st ∨ n ∈ node_names (dot st')))).
  - intros cat level hue st factor size nd _ _ _ _. simpl. unfold add_node.
    split; intros n; rewrite node_names_app, elem_of_app; [auto|].
    rewrite set_add_union, elem_of_union, elem_of_singleton.
    intros [->|?]; [|auto]. right. right. simpl. apply list_elem_of_here.
  - intros cat level hue st factor size nd st' _ _ _ _ _ _ [IH1 IH2].
    simpl in IH1, IH2. unfold add_node in IH1.
    split; [|done]. intros n Hn. apply IH1.
    rewrite node_names_app, elem_of_app. auto.
  - intros. auto.
  - intros ttl size level columns hue n subcat rest st e st1 st' _ _
      [IH1 IH1'] _ [IH2 IH2'].
    simpl in IH1, IH1', IH2, IH2'. unfold add_edge in IH1.
    rewrite node_names_app in IH1. simpl in IH1. rewrite app_nil_r in IH1.
    split; [auto|]. intros n' Hn'.
    destruct (IH2' n' Hn') as [H|H]; [|auto].
    destruct (IH1' n' H) as [H'|H']; auto.
Qed.

(** X7.  Every leaf the traversal records is the name of a node of the
    graph, so the limiter starts its walks at nodes that exist. *)
Theorem leaves_are_nodes fuel root level hue st :
  scan_level fuel root level hue init = Ok st →
  ∀ n, n ∈ leaves st → n ∈ node_names (dot st).
Proof.
  intros H n Hn. apply scan_level_scans, scans_leaves in H as [_ H].
  destruct (H n Hn) as [H'|H']; [|done]. simpl in H'. set_solver.
Qed.





End Shape.

(** * More on the limiter *)

(** X10.  The [while] loop of the limiter ends on every state, also when the
    reverse lists lead around a cycle: each turn but the last takes an entry
    out of a forward list, so the loop makes at most one turn more than the
    forward lists have entries, and returns or raises within them. *)
Theorem limiter_walk_terminates fuel n st :
  (fw_size (fw st) < fuel)%nat →
  prune_chain fuel n st ≠ OutOfFuel
  ∧ prune_chain fuel n st = prune_chain (S (fw_size (fw st))) n st.
Proof.
  intros H.
  destruct (prune_chain_fuel fuel (S (fw_size (fw st))) n st H) as [H1 H2];
    [lia | done].
Qed.

(** X11.  A walk that is led back to its start raises: when two nodes are
    each the one recorded parent and the one recorded child of the other,
    the walk from either of them deletes both and then fails to remove the
    first from the emptied list of the second. *)
Theorem walk_around_cycle_raises r a st :
  a ≠ r →
  rev st !!! r = [a] → rev st !!! a = [r] →
  fw st !!! r = [a] → fw st !!! a = [r] →
  prune r st = Raise ValueError.
Proof.
  intros Hne Hr Ha Hfr Hfa.
  rewrite prune_unfold, Hr. unfold prune_step at 1. simpl.
  rewrite Hfa. simpl. rewrite decide_True by done. simpl.
  rewrite lookup_total_insert_eq.
  rewrite prune_unfold. simpl. rewrite Ha. unfold prune_step at 1. simpl.
  rewrite lookup_total_insert_ne, Hfr by done. simpl.
  rewrite decide_True by done. simpl.
  rewrite lookup_total_insert_eq.
  rewrite prune_unfold. simpl. rewrite Hr. unfold prune_step at 1. simpl.
  rewrite lookup_total_insert_ne, lookup_total_insert_eq by done. done.
Qed.

Lemma list_remove_sublist x l l' : list_remove x l = Ok l' → l' `sublist_of` l.
Proof.
  revert l'. induction l as [|y l IH]; intros l'; simpl; [done|].
  destruct (decide (x = y)) as [->|Hne].
  - intros [= <-]. by apply sublist_cons.
  - intros H. inv_bind H. injection H as <-. apply sublist_skip. by apply IH.
Qed.

Lemma del_sublist n p d : del_node n (del_edge p n d) `sublist_of` d.
Proof.
  unfold del_node, del_edge.
  etransitivity; apply sublist_filter.
Qed.

Lemma prune_step_sublist n p st st' :
  prune_step n p st = Ok st' →
  dot st' `sublist_of` dot st ∧ ∀ q, fw st' !!! q `sublist_of` fw st !!! q.
Proof.
  intros H. apply prune_step_Ok in H as (l & Hl & -> & _). simpl. split.
  - apply del_sublist.
  - intros q. destruct (decide (p = q)) as [<-|Hpq].
    + rewrite lookup_total_insert_eq. by eapply list_remove_sublist.
    + by rewrite lookup_total_insert_ne.
Qed.

Lemma prune_sublist n st st' :
  prune n st = Ok st' →
  dot st' `sublist_of` dot st ∧ ∀ q, fw st' !!! q `sublist_of` fw st !!! q.
Proof.
  revert st'. pattern n, st, (prune n st). apply prune_ind; clear n st.
  - intros n st _ st' [= <-]. done.
  - done.
  - intros n p st st1 _ Hs _ st' [= <-]. by apply prune_step_sublist in Hs.
  - intros n p st st1 _ Hs _ IH st' H. destruct (IH _ H) as (Hd & Hf).
    apply prune_step_sublist in Hs as (Hd1 & Hf1). split.
    + etransitivity; [exact Hd | exact Hd1].
    + intros q. etransitivity; [apply Hf | apply Hf1].
Qed.

Lemma prune_leaves_sublist order : ∀ st st',
  prune_leaves order st = Ok st' →
  dot st' `sublist_of` dot st ∧ ∀ q, fw st' !!! q `sublist_of` fw st !!! q.
Proof.
  induction order as [|n order IH]; intros st st' H; simpl in H.
  - by injection H as <-.
  - inv_bind H. destruct (IH _ _ H) as (Hd & Hf).
    apply prune_sublist in Ha as (Hd1 & Hf1). split.
    + etransitivity; [exact Hd | exact Hd1].
    + intros q. etransitivity; [apply Hf | apply Hf1].
Qed.

(** X12.  The limiter only deletes.  The graph it leaves is the graph it
    found with items taken out and the others in their order; a forward list
    only loses entries; the reverse lists, the leaves and the counter are
    not touched, so the reverse lists still name the parents of nodes that
    are gone. *)
Theorem limiter_only_removes iter st st' :
  reduce iter st = Ok st' →
  dot st' `sublist_of` dot st
  ∧ (∀ q, fw st' !!! q `sublist_of` fw st !!! q)
  ∧ rev st' = rev st ∧ leaves st' = leaves st ∧ counter st' = counter st.
Proof.
  intros H. apply reduce_Ok in H. case_bool_decide.
  - pose proof (prune_leaves_sublist _ _ _ H) as (Hd & Hf).
    apply prune_leaves_frame in H as (Hr & Hc & Hl). done.
  - by subst.
Qed.

Lemma prune_leaves_Raise order : ∀ st e,
  prune_leaves order st = Raise e → e = ValueError.
Proof.
  induction order as [|n order IH]; intros st e H; simpl in H; [done|].
  destruct (prune n st) as [st1| |] eqn:Hp; simpl in H.
  - by eapply IH.
  - injection H as <-. by eapply prune_Raise.
  - done.
Qed.

(** X13.  The only exception of the limiter is the [ValueError] of
    [list.remove]; it takes a graph of more than 1000 counted nodes and a
    leaf with exactly one recorded parent to raise it. *)
Theorem limiter_raises_ValueError_only iter st e :
  reduce iter st = Raise e →
  e = ValueError ∧ reduce_threshold < counter st
  ∧ ∃ n p, n ∈ iter (leaves st) ∧ rev st !!! n = [p].
Proof.
  unfold reduce. case_bool_decide as Hc; [|done]. intros H.
  split; [by eapply prune_leaves_Raise|]. split; [done|].
  destruct (decide (Exists (λ n, length (rev st !!! n) = 1%nat) (iter (leaves st))))
    as [Hex|Hex].
  - apply Exists_exists in Hex as (n & Hin & Hn).
    destruct (rev st !!! n) as [|p [|]] eqn:Hr; try done. by exists n, p.
  - apply not_Exists_Forall in Hex; [|intros ?; apply _].
    assert (prune_leaves (iter (leaves st)) st = Ok st) as Hok; [|congruence].
    clear H. induction Hex as [|n order Hn _ IH]; [done|]. simpl.
    rewrite prune_skip; [done|]. simpl in Hn. intros p Hp.
    rewrite Hp in Hn. by apply Hn.
Qed.

Lemma del_keeps_edge n p e d :
  ¬ (source e = p ∧ destination e = n) →
  IEdge e ∈ d → IEdge e ∈ del_node n (del_edge p n d).
Proof.
  intros Hne Hin. unfold del_node, del_edge.
  apply list_elem_of_filter. split; [simpl; tauto |].
  apply list_elem_of_filter. split; [simpl; tauto | done].
Qed.

Lemma prune_keeps_edges n st st' e :
  prune n st = Ok st' →
  rev st !!! destination e ≠ [source e] →
  IEdge e ∈ dot st → IEdge e ∈ dot st'.
Proof.
  revert st'. pattern n, st, (prune n st). apply prune_ind; clear n st.
  - intros n st _ st' [= <-]. done.
  - done.
  - intros n p st st1 Hrev Hs _ st' [= <-] He Hin.
    apply prune_step_frame in Hs as (_ & _ & _ & ->).
    apply del_keeps_edge; [|done]. intros [<- <-]. done.
  - intros n p st st1 Hrev Hs _ IH st' H He Hin.
    apply prune_step_frame in Hs as (Hr & _ & _ & Hd).
    apply IH; [done | by rewrite Hr |].
    rewrite Hd. apply del_keeps_edge; [|done]. intros [<- <-]. done.
Qed.

Lemma prune_leaves_keeps_edges order e : ∀ st st',
  prune_leaves order st = Ok st' →
  rev st !!! destination e ≠ [source e] →
  IEdge e ∈ dot st → IEdge e ∈ dot st'.
Proof.
  induction order as [|n order IH]; intros st st' H He Hin; simpl in H.
  - by injection H as <-.
  - inv_bind H. eapply IH; [done | |].
    + apply prune_frame in Ha as (-> & _). done.
    + by eapply prune_keeps_edges.
Qed.

(** X14.  The limiter deletes an edge only when its source is the one
    recorded parent of its destination: every other edge of the graph is
    kept. *)
Theorem limiter_keeps_other_edges iter st st' e :
  reduce iter st = Ok st' →
  rev st !!! destination e ≠ [source e] →
  IEdge e ∈ dot st → IEdge e ∈ dot st'.
Proof.
  intros H He. apply reduce_Ok in H. case_bool_decide; [|by subst].
  by eapply prune_leaves_keeps_edges.
Qed.

Lemma elem_of_count x l : x ∈ l ↔ count x l ≠ 0%nat.
Proof.
  split.
  - intros H Hc. by apply count_zero in Hc.
  - intros H. destruct (decide (x ∈ l)) as [|Hn]; [done|].
    by apply count_zero in Hn.
Qed.

Lemma prune_step_keeps_child n q st st1 p c :
  prune_step n q st = Ok st1 →
  rev st !!! n = [q] →
  (∀ q, rev st !!! c ≠ [q]) ∨ (n ≠ c ∧ fw st !!! c = []) →
  c ∈ fw st !!! p →
  c ∈ fw st1 !!! p
  ∧ ((∀ q, rev st1 !!! c ≠ [q]) ∨ (q ≠ c ∧ fw st1 !!! c = []))
  ∧ (fw st1 !!! q = [] → q ≠ p).
Proof.
  intros Hs Hrev Hc Hin.
  pose proof (prune_step_count _ _ _ _ c p Hs) as Hcount.
  pose proof (prune_step_frame _ _ _ _ Hs) as (Hr & _).
  assert (Hnc : n ≠ c).
  { destruct Hc as [Hc|[Hc _]]; [|done]. intros ->. by apply (Hc q). }
  rewrite decide_False in Hcount by tauto.
  assert (Hin1 : c ∈ fw st1 !!! p).
  { apply elem_of_count. apply elem_of_count in Hin. lia. }
  split; [done|]. split.
  - destruct Hc as [Hc|[_ Hc]]; [left; by rewrite Hr | right].
    apply prune_step_Ok in Hs as (l & Hl & -> & _).
    apply list_remove_Ok in Hl as (Hnq & _). simpl.
    assert (q ≠ c) as Hqc.
    { intros ->. rewrite Hc in Hnq. by apply elem_of_nil in Hnq. }
    split; [done|]. by rewrite lookup_total_insert_ne.
  - intros Hq ->. rewrite Hq in Hin1. by apply elem_of_nil in Hin1.
Qed.

Lemma prune_keeps_parent n st p c nd :
  node_name nd = p →
  ∀ st', prune n st = Ok st' →
  n ≠ p →
  (∀ q, rev st !!! c ≠ [q]) ∨ (n ≠ c ∧ fw st !!! c = []) →
  c ∈ fw st !!! p →
  c ∈ fw st' !!! p
  ∧ ((∀ q, rev st' !!! c ≠ [q]) ∨ fw st' !!! c = [])
  ∧ (INode nd ∈ dot st → INode nd ∈ dot st').
Proof.
  intros Hname. pattern n, st, (prune n st). apply prune_ind; clear n st.
  - intros n st _ st' [= <-] _ Hc Hin. split; [done|].
    split; [|done]. destruct Hc as [?|[_ ?]]; auto.
  - done.
  - intros n q st st1 Hrev Hs _ st' [= <-] Hnp Hc Hin.
    destruct (prune_step_keeps_child _ _ _ _ p c Hs Hrev Hc Hin) as (H1 & H2 & _).
    split; [done|]. split; [destruct H2 as [?|[_ ?]]; auto|].
    apply prune_step_frame in Hs as (_ & _ & _ & ->).
    apply del_keeps_node. congruence.
  - intros n q st st1 Hrev Hs Hq IH st' H Hnp Hc Hin.
    destruct (prune_step_keeps_child _ _ _ _ p c Hs Hrev Hc Hin) as (H1 & H2 & H3).
    destruct (IH _ H (H3 Hq) H2 H1) as (H4 & H5 & H6).
    split; [done|]. split; [done|]. intros Hnd. apply H6.
    apply prune_step_frame in Hs as (_ & _ & _ & ->).
    apply del_keeps_node; [congruence | done].
Qed.

Lemma prune_leaves_keeps_parent order p c nd :
  node_name nd = p →
  ∀ st st', prune_leaves order st = Ok st' →
  p ∉ order →
  stays c order st →
  c ∈ fw st !!! p →
  INode nd ∈ dot st → INode nd ∈ dot st'.
Proof.
  intros Hname. induction order as [|n order IH];
    intros st st' H Hp Hc Hin Hnd; simpl in H.
  - by injection H as <-.
  - inv_bind H. apply not_elem_of_cons in Hp as [Hpn Hp].
    destruct (prune_keeps_parent n st p c nd Hname a Ha) as (H1 & H2 & H3);
      [done | | done |].
    { destruct Hc as [Hc|[Hc Hf]]; [by left | right].
      apply not_elem_of_cons in Hc as [Hc _]. done. }
    eapply IH; [done | done | | done | by apply H3].
    destruct Hc as [Hc|[Hc Hf]].
    + left. apply prune_frame in Ha as (-> & _). done.
    + right. apply not_elem_of_cons in Hc as [_ Hc]. split; [done|].
      destruct H2 as [H2|H2]; [|done].
      pose proof (prune_sublist _ _ _ Ha) as (_ & Hsub).
      specialize (Hsub c). rewrite Hf in Hsub. by apply sublist_nil_r in Hsub.
Qed.

(** X15.  A node that is no leaf is kept by the limiter as long as it has a
    child that is not taken from it: a child with no or several recorded
    parents, or a child that is no leaf and has no recorded child of its own
    (a category without subcategories, visited above level 0). *)
Theorem limiter_keeps_parent_of_kept_child iter st st' nd c :
  reduce iter st = Ok st' →
  node_name nd ∉ iter (leaves st) →
  c ∈ fw st !!! node_name nd →
  length (rev st !!! c) ≠ 1%nat ∨ ((c ∉ iter (leaves st)) ∧ fw st !!! c = []) →
  INode nd ∈ dot st → INode nd ∈ dot st'.
Proof.
  intros H Hp Hin Hc. apply reduce_Ok in H. case_bool_decide; [|by subst].
  eapply prune_leaves_keeps_parent; [done | done | done | | done].
  destruct Hc as [Hc|Hc]; [left | by right].
  by apply singleton_length.
Qed.

(** * The first pass of the limiter over a traversed graph *)

Section FirstPass.

Context {Cat : Type}.
Variable title : Cat → string.
Variable subcategories : Cat → list Cat.
Variable float_pow : float → Z → exn + float.
Variable float_of_str : string → exn + float.
Variable args : Args.

Local Abbreviation scan_level := (scan_level title subcategories float_pow float_of_str args).
Local Abbreviation scans := (scans title subcategories float_pow float_of_str args).






End FirstPass.





Section FirstPassReturns.

Context {Cat : Type}.
Variable title : Cat → string.
Variable subcategories : Cat → list Cat.
Variable float_pow : float → Z → exn + float.
Variable float_of_str : string → exn + float.
Variable args : Args.

Local Abbreviation scan_level := (scan_level title subcategories float_pow float_of_str args).


End FirstPassReturns.

(** * Traversals that return *)

Lemma int_of_float_finite x : finite x → ∃ z, int_of_float x = Ok z.
Proof. destruct x; simpl; try done; eauto. Qed.



Section Returns.

Context {Cat : Type}.
Variable title : Cat → string.
Variable subcategories : Cat → list Cat.
Variable float_pow : float → Z → exn + float.
Variable int_of_str : string → exn + Z.
Variable float_of_str : string → exn + float.
Variable to_string : list item → string.
Variable args : Args.

Local Abbreviation scan_level := (scan_level title subcategories float_pow float_of_str args).
Local Abbreviation scan_subcats := (scan_subcats title args).
Local Abbreviation scans := (scans title subcategories float_pow float_of_str args).

Lemma scan_subcats_returns recur ttl size level columns hue :
  finite size →
  (∀ subcat h st, ∃ st', recur subcat h st = Ok st') →
  ∀ rest n st, ∃ st',
    scan_subcats recur ttl size level columns hue n rest st = Ok st'.
Proof.
  intros Hsize Hrec. induction rest as [|subcat rest IH]; intros n st.
  - by exists st.
  - rewrite scan_subcats_cons. unfold edge.
    destruct (int_of_float_finite _ Hsize) as (lfs & ->). simpl.
    destruct (Hrec subcat (branch_hue hue n)
                (with_edge {| source := ttl; destination := title subcat;
                   minlen := if level_ne_depth args level
                             then n mod columns + 1 else 1;
                   edge_size := size; edge_hue := branch_hue hue n;
                   labelfontsize := lfs |} st)) as (st1 & ->).
    simpl. apply IH.
Qed.

Lemma scan_level_returns factor fuel : ∀ cat level hue st,
  py_float float_of_str (downsize args) = Ok factor →
  sizes_finite float_pow factor level →
  0 ≤ level < Z.of_nat fuel →
  ∃ st', scan_level fuel cat level hue st = Ok st'.
Proof.
  induction fuel as [|fuel IH]; intros cat level hue st Hf Hsz Hl; [lia|].
  rewrite scan_level_S, Hf. simpl.
  destruct (Hsz level) as (size & -> & Hfin & Hfin10); [lia|]. simpl.
  unfold node. destruct (int_of_float_finite _ Hfin10) as (fs & ->). simpl.
  destruct (_ || _) eqn:Hb; [eauto|].
  apply orb_false_iff in Hb as [Hb _]. apply bool_decide_eq_false in Hb.
  apply scan_subcats_returns; [done|]. intros subcat h st1.
  apply IH; [done | | lia]. intros l Hl'. apply Hsz. lia.
Qed.

(** X17.  The traversal returns, for every category source, when the scaling
    factor is a float whose powers down from the level are finite and stay
    finite when multiplied by ten, and the level is not negative: nothing
    else in [scan_level] can raise.  The state it returns is the same for
    every bound on the nesting of the calls that is above the level. *)
Theorem traversal_returns factor fuel cat level hue st :
  py_float float_of_str (downsize args) = Ok factor →
  sizes_finite float_pow factor level →
  0 ≤ level < Z.of_nat fuel →
  ∃ st', ∀ fuel', (fuel ≤ fuel')%nat →
    scan_level fuel' cat level hue st = Ok st'.
Proof.
  intros Hf Hsz Hl.
  destruct (scan_level_returns factor fuel cat level hue st Hf Hsz Hl)
    as (st' & Hst').
  exists st'. intros fuel' Hle. rewrite <- Hst'.
  apply scan_level_fuel_mono; [done|]. by rewrite Hst'.
Qed.



Lemma scans_edge_sizes cat level hue st st' factor :
  scans cat level hue st st' →
  py_float float_of_str (downsize args) = Ok factor →
  ∃ items, dot st' = dot st ++ items
    ∧ Forall (λ e, ∃ l, l ≤ level
                 ∧ float_pow factor l = inr (edge_size e)
                 ∧ int_of_float (edge_size e) = Ok (labelfontsize e)
                 ∧ labelfontsize e = Qtrunc (to_Q (edge_size e)))
        (edges items).
Proof.
  intros H Hf. revert cat level hue st st' H.
  apply (scans_mut _ title subcategories float_pow float_of_str args
           (λ _ level _ st st', ∃ items, dot st' = dot st ++ items
              ∧ Forall (λ e, ∃ l, l ≤ level
                  ∧ float_pow factor l = inr (edge_size e)
                  ∧ int_of_float (edge_size e) = Ok (labelfontsize e)
                  ∧ labelfontsize e = Qtrunc (to_Q (edge_size e)))
                  (edges items))
           (λ _ size level _ _ _ _ st st',
              float_pow factor level = inr size →
              ∃ items, dot st' = dot st ++ items
              ∧ Forall (λ e, ∃ l, l ≤ level
                  ∧ float_pow factor l = inr (edge_size e)
                  ∧ int_of_float (edge_size e) = Ok (labelfontsize e)
                  ∧ labelfontsize e = Qtrunc (to_Q (edge_size e)))
                  (edges items))).
  - intros cat level hue st factor' size nd _ _ _ _. exists [INode nd].
    split; [done | constructor].
  - intros cat level hue st factor' size nd st' Hf' Hp _ _ _ _ IH.
    rewrite Hf in Hf'. injection Hf' as <-.
    destruct (IH Hp) as (items & Hd & Hall).
    exists (INode nd :: items). simpl in Hd. unfold add_node in Hd.
    rewrite <- app_assoc in Hd. done.
  - intros. exists []. split; [by rewrite app_nil_r | constructor].
  - intros ttl size level columns hue n subcat rest st e st1 st' He _
      (i1 & Hd1 & Hall1) _ IH2 Hp.
    destruct (IH2 Hp) as (i2 & Hd2 & Hall2).
    unfold edge in He. inv_bind He. injection He as <-.
    simpl in Hd1, Hd2. unfold add_edge in Hd1.
    eexists (IEdge _ :: i1 ++ i2). split.
    { rewrite Hd2, Hd1, <- !app_assoc. done. }
    change (IEdge ?e :: i1 ++ i2) with ([IEdge e] ++ (i1 ++ i2)).
    rewrite !edges_app. simpl.
    constructor; [|apply Forall_app; split; [|done]].
    + exists level. simpl. split; [lia|]. split; [done|]. split; [done|].
      by apply int_of_float_Qtrunc.
    + eapply Forall_impl; [exact Hall1|]. simpl.
      intros e' (l & Hl & H'). exists l. split; [lia | done].
Qed.

(** X19.  The label font size of every edge is the size of its level cut to
    an integer, as the font size of a node is: [int(downsize ** l)], for a
    level [l] of the traversal, truncated towards zero. *)
Theorem edge_label_size_truncates fuel cat level hue st st' factor :
  scan_level fuel cat level hue st = Ok st' →
  py_float float_of_str (downsize args) = Ok factor →
  ∃ items, dot st' = dot st ++ items
    ∧ ∀ e, e ∈ edges items →
        ∃ l, l ≤ level
          ∧ float_pow factor l = inr (edge_size e)
          ∧ int_of_float (edge_size e) = Ok (labelfontsize e)
          ∧ labelfontsize e = Qtrunc (to_Q (edge_size e)).
Proof.
  intros H Hf. apply scan_level_scans in H.
  destruct (scans_edge_sizes _ _ _ _ _ _ H Hf) as (items & Hd & Hall).
  exists items. split; [done|]. by apply Forall_forall.
Qed.

End Returns.

(** * The graph the limiter leaves *)









Section Closed.

Context {Cat : Type}.
Variable title : Cat → string.
Variable subcategories : Cat → list Cat.
Variable float_pow : float → Z → exn + float.
Variable float_of_str : string → exn + float.
Variable args : Args.

Local Abbreviation scan_level := (scan_level title subcategories float_pow float_of_str args).




End Closed.

(** * The added properties on sample graphs *)

Lemma diamond_scan :
  scan_level diamond_title diamond_subs pow_model float_of_str_model
    default_args 3 0%N 2 None init
  = Ok diamond_scanned.
Proof. vm_compute. reflexivity. Qed.

Lemma diamond_reduce : reduce iter_up diamond_state = Ok diamond_reduced.
Proof. vm_compute. reflexivity. Qed.

Lemma chain_reduce : reduce iter_up sample_chain = Ok chain_reduced.
Proof. vm_compute. reflexivity. Qed.

Lemma chain_reduce_again : reduce iter_up chain_reduced = Raise ValueError.
Proof. vm_compute. reflexivity. Qed.


Lemma sizes_finite_default : sizes_finite pow_model (of_Z 4) 2.
Proof.
  intros l Hl.
  assert (l = 0 ∨ l = 1 ∨ l = 2) as [-> | [-> | ->]] by lia;
    eexists; (split; [vm_compute; reflexivity |]); split; exact I.
Qed.


Lemma index_mirrors_edges_witness :
  count "C" (fw diamond_scanned !!! "A") = edge_count "A" "C" (dot diamond_scanned)
  ∧ count "A" (rev diamond_scanned !!! "C") = edge_count "A" "C" (dot diamond_scanned).
Proof.
  exact (index_mirrors_edges diamond_title diamond_subs pow_model
           float_of_str_model default_args 3 0%N 2 None diamond_scanned
           diamond_scan "A" "C").
Defined.



Lemma leaves_are_nodes_witness :
  "C" ∈ leaves diamond_scanned ∧ "C" ∈ node_names (dot diamond_scanned).
Proof.
  assert ("C" ∈ leaves diamond_scanned) as H
    by (apply (bool_decide_unpack _); vm_compute; exact I).
  split; [exact H |].
  exact (leaves_are_nodes diamond_title diamond_subs pow_model
           float_of_str_model default_args 3 0%N 2 None diamond_scanned
           diamond_scan "C" H).
Defined.


Lemma edge_label_size_truncates_witness :
  ∃ items,
    dot diamond_scanned = dot init ++ items
    ∧ ∀ e, e ∈ edges items →
        labelfontsize e = Qtrunc (to_Q (edge_size e)).
Proof.
  destruct (edge_label_size_truncates diamond_title diamond_subs pow_model
              float_of_str_model default_args 3 0%N 2 None init diamond_scanned
              (of_Z 4) diamond_scan eq_refl) as (items & Hd & Hall).
  exists items. split; [exact Hd |].
  intros e He. destruct (Hall e He) as (l & _ & _ & _ & H). exact H.
Defined.

Lemma traversal_returns_witness :
  ∃ st, ∀ fuel', (3 ≤ fuel')%nat →
    scan_level diamond_title diamond_subs pow_model float_of_str_model
      default_args fuel' 0%N 2 None init = Ok st.
Proof.
  apply (traversal_returns diamond_title diamond_subs pow_model
           float_of_str_model default_args (of_Z 4) 3 0%N 2 None init).
  - reflexivity.
  - apply sizes_finite_default.
  - lia.
Defined.

Lemma walk_around_cycle_raises_witness :
  prune "R" ring_scanned = Raise ValueError.
Proof.
  apply (walk_around_cycle_raises "R" "A" ring_scanned);
    [discriminate | vm_compute; reflexivity..].
Defined.


Lemma limiter_walk_terminates_witness :
  prune_chain 3 "A" cycle_state ≠ OutOfFuel.
Proof.
  apply (limiter_walk_terminates 3 "A" cycle_state).
  vm_compute. lia.
Defined.

Lemma limiter_only_removes_witness :
  dot chain_reduced `sublist_of` dot sample_chain.
Proof.
  exact (proj1 (limiter_only_removes iter_up sample_chain chain_reduced
                  chain_reduce)).
Defined.

Lemma limiter_raises_ValueError_only_witness :
  reduce_threshold < counter chain_reduced.
Proof.
  exact (proj1 (proj2 (limiter_raises_ValueError_only iter_up chain_reduced
                         ValueError chain_reduce_again))).
Defined.

Lemma limiter_keeps_other_edges_witness :
  ∃ e, source e = "A" ∧ destination e = "C" ∧ IEdge e ∈ dot diamond_reduced.
Proof.
  exists {| source := "A"; destination := "C"; minlen := 1;
            edge_size := of_Z 4; edge_hue := fresh_hue 0; labelfontsize := 4 |}.
  split; [reflexivity |]. split; [reflexivity |].
  apply (limiter_keeps_other_edges iter_up diamond_state diamond_reduced).
  - exact diamond_reduce.
  - vm_compute. discriminate.
  - apply (list_elem_of_lookup_2 _ 3). vm_compute. reflexivity.
Defined.

Lemma limiter_keeps_parent_of_kept_child_witness :
  ∃ nd, node_name nd = "A" ∧ INode nd ∈ dot diamond_reduced.
Proof.
  exists {| node_name := "A"; node_count := 2; fontsize := 40 |}.
  split; [reflexivity |].
  apply (limiter_keeps_parent_of_kept_child iter_up diamond_state
           diamond_reduced _ "C").
  - exact diamond_reduce.
  - apply (bool_decide_unpack _). vm_compute. exact I.
  - apply (bool_decide_unpack _). vm_compute. exact I.
  - left. vm_compute. lia.
  - apply (list_elem_of_lookup_2 _ 2). vm_compute. reflexivity.
Defined.



